(** * The web3 platform client: a shallow embedding and its properties

    The client library of the repository has two layers.

    - [src/web3.js] and [src/protocols/index.js]: the promise-based facade over
      a JSON-RPC transport.  It is embedded over a small model of JavaScript
      values ([Js]), with the transport as a section variable and every
      [rawCall] recorded in a trace ([Protocols], [Web3]).
    - The ABI subsystem ([./encoder], [./decoder], [./utils]), which the
      facade only requires.  Those modules are embedded from their written
      specification ([Bytes], [Hex], [Word], [Utf8], [Abi], [AbiDef],
      [Encoder], [Decoder]).

    The definitions come first, then their properties. *)

From Stdlib Require Import ZArith List Bool Lia Strings.Byte Ascii String.
From Stdlib Require Import Floats.SpecFloat.
From stdpp Require Import base option list strings pretty gmap.

Local Open Scope string_scope.
Set Warnings "-register-all".

(** ** JavaScript values *)

Module Js.

(** The values the facade inspects.  Numbers are IEEE doubles, kept as
    [spec_float]; objects are finite maps from property names to values;
    functions are opaque but, like every object, carry properties.
    [HttpProtocol arg] is the instance built by [new HttpProtocol(arg)]. *)
Inductive value : Type :=
| Undefined
| Null
| Bool (b : bool)
| Num (n : spec_float)
| Str (s : string)
| Arr (elems : list value)
| Obj (props : gmap string value)
| Fun (id : string) (props : gmap string value)
| StrObj (s : string)
| Err (msg : string)
| HttpProtocol (arg : value).

(** [typeof v] *)
Definition typeof (v : value) : string :=
  match v with
  | Undefined => "undefined"
  | Null => "object"
  | Bool _ => "boolean"
  | Num _ => "number"
  | Str _ => "string"
  | Arr _ | Obj _ | StrObj _ | Err _ | HttpProtocol _ => "object"
  | Fun _ _ => "function"
  end.

(** [ToBoolean]: the falsy values are [undefined], [null], [false], [+0],
    [-0], [NaN] and the empty string. *)
Definition truthy (v : value) : bool :=
  match v with
  | Undefined | Null => false
  | Bool b => b
  | Num (S754_zero _) | Num S754_nan => false
  | Num _ => true
  | Str s => negb (String.eqb s "")
  | _ => true
  end.

(** Modelled from the spec: [./protocols/http] is not among the sources; an
    [HttpProtocol] instance is the transport collaborator, whose one
    capability is [rawCall(method, params)]. *)
Definition httpProtocolProp (k : string) : value :=
  if String.eqb k "rawCall" then Fun "HttpProtocol.prototype.rawCall" ∅
  else Undefined.

(** [v[k]], with [undefined] for an absent property.  Only own properties of
    objects and functions are kept; the standard prototypes define no
    [rawCall]. *)
Definition getProp (v : value) (k : string) : value :=
  match v with
  | Obj props | Fun _ props => default Undefined (props !! k)
  | HttpProtocol _ => httpProtocolProp k
  | _ => Undefined
  end.

(** A parameter with a default value: the default replaces [undefined]
    (an omitted argument is [undefined]). *)
Definition param (arg dflt : value) : value :=
  match arg with
  | Undefined => dflt
  | _ => arg
  end.

(** lodash [isFinite]: a primitive number that is neither [NaN] nor
    infinite. *)
Definition isFinite (v : value) : bool :=
  match v with
  | Num (S754_zero _) | Num (S754_finite _ _ _) => true
  | _ => false
  end.

(** lodash [isArray] *)
Definition isArray (v : value) : bool :=
  match v with
  | Arr _ => true
  | _ => false
  end.

(** lodash [isString]: a primitive string or a [String] object. *)
Definition isString (v : value) : bool :=
  match v with
  | Str _ | StrObj _ => true
  | _ => false
  end.

(** Completion of a synchronous call: a value or a thrown exception. *)
Inductive completion (A : Type) : Type :=
| Normal (a : A)
| Throw (e : value).
Arguments Normal {A} a.
Arguments Throw {A} e.

(** The state of a promise as its consumer observes it. *)
Inductive promise : Type :=
| Fulfilled (v : value)
| Rejected (e : value)
| Pending.

(** [p.then(f)] for a synchronous callback [f] returning a plain value. *)
Definition then_ (p : promise) (f : value -> completion value) : promise :=
  match p with
  | Fulfilled v =>
      match f v with
      | Normal r => Fulfilled r
      | Throw e => Rejected e
      end
  | Rejected e => Rejected e
  | Pending => Pending
  end.

End Js.

(** ** [src/protocols/index.js] *)

Module Protocols.
Import Js.

(** [initProtocol]: the three guards of the source, in their order. *)
Definition initProtocol (protocol : value) : completion value :=
  if negb (truthy protocol) then
    Throw (Err "protocol cannot be undefined.")
  else if String.eqb (typeof protocol) "string" then
    Normal (HttpProtocol protocol)
  else if negb (truthy (getProp protocol "rawCall"))
          || negb (String.eqb (typeof (getProp protocol "rawCall")) "function") then
    Throw (Err "protocol is not a compatible Web3 Provider.")
  else
    Normal protocol.

(** What the facade needs of a protocol: a callable [rawCall]. *)
Definition exposesRawCall (protocol : value) : bool :=
  String.eqb (typeof (getProp protocol "rawCall")) "function".

End Protocols.

(** ** [src/web3.js] *)

Module Web3.
Import Js.

(** One request handed to the transport: [rawCall(method, params)];
    [params] is [None] when the source passes the method name alone. *)
Record call : Type := Call { method : string; params : option (list value) }.

(** What [rawCall] does for its caller: it throws, or returns a promise. *)
Inductive outcome : Type :=
| Throws (e : value)
| Returns (p : promise).

(** The instance built by [new Web3(protocol)]. *)
Record instance : Type := Instance { protocol : value }.

(** [constructor(protocol)] *)
Definition constructor (p : value) : completion instance :=
  match Protocols.initProtocol p with
  | Normal pr => Normal (Instance pr)
  | Throw e => Throw e
  end.

Section Facade.
(** The transport collaborator: a state of its own ([W]) and its answer
    to each request.  The decoder of search logs is the one of
    [./decoder], here any function of its three arguments. *)
Context {W : Type}.
Variable transport : call -> W -> outcome * W.
Variable decodeSearchLog : value -> value -> value -> completion value.

(** The state threaded through the facade: the transport's state and the
    requests issued so far, oldest first. *)
Record state : Type := State { world : W; issued : list call }.

Definition M (A : Type) : Type := state -> completion A * state.

Definition ret {A} (a : A) : M A := fun st => (Normal a, st).

Definition throw {A} (e : value) : M A := fun st => (Throw e, st).

Definition bind {A B} (m : M A) (k : A -> M B) : M B :=
  fun st =>
    match m st with
    | (Normal a, st') => k a st'
    | (Throw e, st') => (Throw e, st')
    end.

(** [this.protocol.rawCall(method, params)] *)
Definition rawCall (m : string) (ps : option (list value)) : M promise :=
  fun st =>
    let c := Call m ps in
    let '(o, w) := transport c (world st) in
    (match o with
     | Throws e => Throw e
     | Returns p => Normal p
     end,
     State w (issued st ++ [c])).

(** The body of an [async] function either completes or stays suspended
    at an [await] whose promise never settles. *)
Definition Async (A : Type) : Type := state -> option (completion A) * state.

Definition aret {A} (a : A) : Async A := fun st => (Some (Normal a), st).

Definition abind {A B} (m : Async A) (k : A -> Async B) : Async B :=
  fun st =>
    match m st with
    | (Some (Normal a), st') => k a st'
    | (Some (Throw e), st') => (Some (Throw e), st')
    | (None, st') => (None, st')
    end.

(** [await e], where evaluating [e] yields a promise or throws. *)
Definition await (m : M promise) : Async value :=
  fun st =>
    match m st with
    | (Normal (Fulfilled v), st') => (Some (Normal v), st')
    | (Normal (Rejected e), st') => (Some (Throw e), st')
    | (Normal Pending, st') => (None, st')
    | (Throw e, st') => (Some (Throw e), st')
    end.

Definition atryCatch {A} (body : Async A) (handler : value -> Async A) : Async A :=
  fun st =>
    match body st with
    | (Some (Throw e), st') => handler e st'
    | r => r
    end.

(** An [async] function: the call itself never throws, the promise it
    returns settles as the body completes. *)
Definition async (body : Async value) : M promise :=
  fun st =>
    match body st with
    | (Some (Normal v), st') => (Normal (Fulfilled v), st')
    | (Some (Throw e), st') => (Normal (Rejected e), st')
    | (None, st') => (Normal Pending, st')
    end.

(** [isConnected()] *)
Definition isConnected : M promise :=
  async
    (atryCatch
       (abind (await (rawCall "getnetworkinfo" None))
              (fun res => aret (Bool (String.eqb (typeof res) "object"))))
       (fun _err => aret (Bool false))).

(** [getblock(blockHash, verbose = true)] *)
Definition getblock (blockHash verbose : value) : M promise :=
  let verbose := param verbose (Bool true) in
  rawCall "getblock" (Some [blockHash; verbose]).

Definition getblockchaininfo : M promise := rawCall "getblockchaininfo" None.

Definition getblockcount : M promise := rawCall "getblockcount" None.

Definition getblockhash (blockNum : value) : M promise :=
  rawCall "getblockhash" (Some [blockNum]).

Definition gettransactionreceipt (txid : value) : M promise :=
  rawCall "gettransactionreceipt" (Some [txid]).

(** [listcontracts(startingAcctIndex = 1, maxDisplay = 20)] *)
Definition listcontracts (startingAcctIndex maxDisplay : value) : M promise :=
  let startingAcctIndex := param startingAcctIndex (Num (S754_finite false 1 0)) in
  let maxDisplay := param maxDisplay (Num (S754_finite false 5 2)) in
  rawCall "listcontracts" (Some [startingAcctIndex; maxDisplay]).

(** [searchlogs(fromBlock, toBlock, addresses, topics, contractMetadata,
    removeHexPrefix)] *)
Definition searchlogs
    (fromBlock toBlock addresses topics contractMetadata removeHexPrefix : value)
    : M promise :=
  if negb (isFinite fromBlock) then throw (Err "fromBlock must be a number")
  else if negb (isFinite toBlock) then throw (Err "toBlock must be a number.")
  else
    bind
      (if isString addresses then ret (Obj {[ "addresses" := Arr [addresses] ]})
       else if isArray addresses then ret (Obj {[ "addresses" := addresses ]})
       else throw (Err "addresses must be a string or an array."))
      (fun addrObj =>
    bind
      (if isString topics then ret (Obj {[ "topics" := Arr [topics] ]})
       else if isArray topics then ret (Obj {[ "topics" := topics ]})
       else throw (Err "topics must be a string or an array."))
      (fun topicsObj =>
    bind (rawCall "searchlogs" (Some [fromBlock; toBlock; addrObj; topicsObj]))
      (fun p =>
    ret (then_ p (fun results =>
           decodeSearchLog results contractMetadata removeHexPrefix))))).

Definition getpeerinfo : M promise := rawCall "getpeerinfo" None.

Definition gethexaddress (address : value) : M promise :=
  rawCall "gethexaddress" (Some [address]).

Definition fromhexaddress (hexAddress : value) : M promise :=
  rawCall "fromhexaddress" (Some [hexAddress]).

Definition validateaddress (address : value) : M promise :=
  rawCall "validateaddress" (Some [address]).

Definition backupwallet (destination : value) : M promise :=
  rawCall "backupwallet" (Some [destination]).

Definition dumpprivkey (address : value) : M promise :=
  rawCall "dumpprivkey" (Some [address]).

Definition encryptwallet (passphrase : value) : M promise :=
  rawCall "encryptwallet" (Some [passphrase]).

Definition getaccount (address : value) : M promise :=
  rawCall "getaccount" (Some [address]).

(** [getAccountAddress(acctName = '')] *)
Definition getAccountAddress (acctName : value) : M promise :=
  let acctName := param acctName (Str "") in
  rawCall "getaccountaddress" (Some [acctName]).

Definition getaddressesbyaccount (acctName : value) : M promise :=
  let acctName := param acctName (Str "") in
  rawCall "getaddressesbyaccount" (Some [acctName]).

Definition getnewaddress (acctName : value) : M promise :=
  let acctName := param acctName (Str "") in
  rawCall "getnewaddress" (Some [acctName]).

Definition gettransaction (txid : value) : M promise :=
  rawCall "gettransaction" (Some [txid]).

Definition getwalletinfo : M promise := rawCall "getwalletinfo" None.

Definition getunconfirmedbalance : M promise := rawCall "getunconfirmedbalance" None.

(** [importaddress(address, label = '', rescan = true)] *)
Definition importaddress (address label rescan : value) : M promise :=
  let label := param label (Str "") in
  let rescan := param rescan (Bool true) in
  rawCall "importaddress" (Some [address; label; rescan]).

Definition importprivkey (privateKey label rescan : value) : M promise :=
  let label := param label (Str "") in
  let rescan := param rescan (Bool true) in
  rawCall "importprivkey" (Some [privateKey; label; rescan]).

Definition importwallet (filename : value) : M promise :=
  rawCall "importwallet" (Some [filename]).

Definition listaddressgroupings : M promise := rawCall "listaddressgroupings" None.

Definition listlockunspent : M promise := rawCall "listlockunspent" None.

Definition listunspent : M promise := rawCall "listunspent" None.

(** [sendtoaddress(luxaddress, amount, comment = '', commentTo = '')] *)
Definition sendtoaddress (luxaddress amount comment commentTo : value) : M promise :=
  let comment := param comment (Str "") in
  let commentTo := param commentTo (Str "") in
  rawCall "sendtoaddress" (Some [luxaddress; amount; comment; commentTo]).

Definition settxfee (amount : value) : M promise :=
  rawCall "settxfee" (Some [amount]).

Definition walletlock : M promise := rawCall "walletlock" None.

(** [walletpassphrase(passphrase, timeout, anonymizeonly = false)] *)
Definition walletpassphrase (passphrase timeout anonymizeonly : value) : M promise :=
  let anonymizeonly := param anonymizeonly (Bool false) in
  rawCall "walletpassphrase" (Some [passphrase; timeout; anonymizeonly]).

Definition walletpassphrasechange (oldPassphrase newPassphrase : value) : M promise :=
  rawCall "walletpassphrasechange" (Some [oldPassphrase; newPassphrase]).

End Facade.

(** The parameters of [searchlogs] whose guard fails, by name. *)
Definition offending (fromBlock toBlock addresses topics : value) : list string :=
  (if isFinite fromBlock then [] else ["fromBlock"])
  ++ (if isFinite toBlock then [] else ["toBlock"])
  ++ (if isString addresses || isArray addresses then [] else ["addresses"])
  ++ (if isString topics || isArray topics then [] else ["topics"]).

(** The canonical sequence of a string-or-array filter argument. *)
Definition canonical (filter : value) : option value :=
  if isString filter then Some (Arr [filter])
  else if isArray filter then Some filter
  else None.

End Web3.

(** ** The pass-through methods as one family *)

Module PassThrough.
Import Js Web3.

(** A call of one of the pass-through methods of [src/web3.js], with the
    arguments of the caller ([undefined] for one that is left out). *)
Inductive invocation : Type :=
| Getblock (blockHash verbose : value)
| Getblockchaininfo
| Getblockcount
| Getblockhash (blockNum : value)
| Gettransactionreceipt (txid : value)
| Listcontracts (startingAcctIndex maxDisplay : value)
| Getpeerinfo
| Gethexaddress (address : value)
| Fromhexaddress (hexAddress : value)
| Validateaddress (address : value)
| Backupwallet (destination : value)
| Dumpprivkey (address : value)
| Encryptwallet (passphrase : value)
| Getaccount (address : value)
| GetAccountAddress (acctName : value)
| Getaddressesbyaccount (acctName : value)
| Getnewaddress (acctName : value)
| Gettransaction (txid : value)
| Getwalletinfo
| Getunconfirmedbalance
| Importaddress (address label rescan : value)
| Importprivkey (privateKey label rescan : value)
| Importwallet (filename : value)
| Listaddressgroupings
| Listlockunspent
| Listunspent
| Sendtoaddress (luxaddress amount comment commentTo : value)
| Settxfee (amount : value)
| Walletlock
| Walletpassphrase (passphrase timeout anonymizeonly : value)
| Walletpassphrasechange (oldPassphrase newPassphrase : value).

(** The arguments of a call, in the order of the parameters. *)
Definition arguments (i : invocation) : list value :=
  match i with
  | Getblock blockHash verbose => [blockHash; verbose]
  | Getblockchaininfo => []
  | Getblockcount => []
  | Getblockhash blockNum => [blockNum]
  | Gettransactionreceipt txid => [txid]
  | Listcontracts startingAcctIndex maxDisplay => [startingAcctIndex; maxDisplay]
  | Getpeerinfo => []
  | Gethexaddress address => [address]
  | Fromhexaddress hexAddress => [hexAddress]
  | Validateaddress address => [address]
  | Backupwallet destination => [destination]
  | Dumpprivkey address => [address]
  | Encryptwallet passphrase => [passphrase]
  | Getaccount address => [address]
  | GetAccountAddress acctName => [acctName]
  | Getaddressesbyaccount acctName => [acctName]
  | Getnewaddress acctName => [acctName]
  | Gettransaction txid => [txid]
  | Getwalletinfo => []
  | Getunconfirmedbalance => []
  | Importaddress address label rescan => [address; label; rescan]
  | Importprivkey privateKey label rescan => [privateKey; label; rescan]
  | Importwallet filename => [filename]
  | Listaddressgroupings => []
  | Listlockunspent => []
  | Listunspent => []
  | Sendtoaddress luxaddress amount comment commentTo => [luxaddress; amount; comment; commentTo]
  | Settxfee amount => [amount]
  | Walletlock => []
  | Walletpassphrase passphrase timeout anonymizeonly => [passphrase; timeout; anonymizeonly]
  | Walletpassphrasechange oldPassphrase newPassphrase => [oldPassphrase; newPassphrase]
  end.

(** Running a call: the method of the facade applied to its arguments. *)
Definition run {W : Type} (transport : call -> W -> outcome * W) (i : invocation)
    : M promise :=
  match i with
  | Getblock blockHash verbose => getblock transport blockHash verbose
  | Getblockchaininfo => getblockchaininfo transport
  | Getblockcount => getblockcount transport
  | Getblockhash blockNum => getblockhash transport blockNum
  | Gettransactionreceipt txid => gettransactionreceipt transport txid
  | Listcontracts startingAcctIndex maxDisplay => listcontracts transport startingAcctIndex maxDisplay
  | Getpeerinfo => getpeerinfo transport
  | Gethexaddress address => gethexaddress transport address
  | Fromhexaddress hexAddress => fromhexaddress transport hexAddress
  | Validateaddress address => validateaddress transport address
  | Backupwallet destination => backupwallet transport destination
  | Dumpprivkey address => dumpprivkey transport address
  | Encryptwallet passphrase => encryptwallet transport passphrase
  | Getaccount address => getaccount transport address
  | GetAccountAddress acctName => getAccountAddress transport acctName
  | Getaddressesbyaccount acctName => getaddressesbyaccount transport acctName
  | Getnewaddress acctName => getnewaddress transport acctName
  | Gettransaction txid => gettransaction transport txid
  | Getwalletinfo => getwalletinfo transport
  | Getunconfirmedbalance => getunconfirmedbalance transport
  | Importaddress address label rescan => importaddress transport address label rescan
  | Importprivkey privateKey label rescan => importprivkey transport privateKey label rescan
  | Importwallet filename => importwallet transport filename
  | Listaddressgroupings => listaddressgroupings transport
  | Listlockunspent => listlockunspent transport
  | Listunspent => listunspent transport
  | Sendtoaddress luxaddress amount comment commentTo => sendtoaddress transport luxaddress amount comment commentTo
  | Settxfee amount => settxfee transport amount
  | Walletlock => walletlock transport
  | Walletpassphrase passphrase timeout anonymizeonly => walletpassphrase transport passphrase timeout anonymizeonly
  | Walletpassphrasechange oldPassphrase newPassphrase => walletpassphrasechange transport oldPassphrase newPassphrase
  end.

End PassThrough.

(** ** Bytes, hex strings, words and UTF-8

    The ABI subsystem works on byte strings and moves them as lowercase hex
    strings, optionally prefixed with the marker [0x]. *)

Local Open Scope Z_scope.
Local Open Scope list_scope.

Module Bytes.

Definition toZ (b : byte) : Z := Z.of_N (Byte.to_N b).

Definition ofZ (z : Z) : byte :=
  default x00 (Byte.of_N (Z.to_N (z mod 256))).

(** The [n] low bytes of [z], most significant first. *)
Fixpoint bigEndian (n : nat) (z : Z) : list byte :=
  match n with
  | O => []
  | S n' => bigEndian n' (z / 256) ++ [ofZ z]
  end.

(** The number a byte string denotes, most significant byte first. *)
Definition value (bs : list byte) : Z :=
  fold_left (fun acc b => acc * 256 + toZ b) bs 0.

Definition padLeft (n : nat) (bs : list byte) : list byte :=
  replicate (n - length bs)%nat x00 ++ bs.

(** Right padding with zeros to the next multiple of [n] bytes. *)
Definition padRight (n : nat) (bs : list byte) : list byte :=
  bs ++ replicate ((n - length bs mod n) mod n)%nat x00.

End Bytes.

Module Hex.

Definition marker : string := "0x".

Definition digit (n : N) : ascii :=
  default "0"%char (String.get (N.to_nat n) "0123456789abcdef").

Definition digitValue (c : ascii) : option N :=
  let n := N_of_ascii c in
  if (48 <=? n)%N && (n <=? 57)%N then Some (n - 48)%N
  else if (97 <=? n)%N && (n <=? 102)%N then Some (n - 87)%N
  else None.

(** Lowercase hex of a byte string, without the marker. *)
Fixpoint encode (bs : list byte) : string :=
  match bs with
  | [] => ""
  | b :: bs' =>
      let n := Byte.to_N b in
      String (digit (n / 16)%N) (String (digit (n mod 16)%N) (encode bs'))
  end.

(** Modelled from the spec: the hex convention on output, lowercase digits
    behind the marker. *)
Definition render (bs : list byte) : string := marker +:+ encode bs.

Definition hasMarker (s : string) : bool := String.prefix marker s.

Definition stripMarker (s : string) : string :=
  if hasMarker s then String.substring 2 (String.length s - 2)%nat s else s.

Fixpoint decodeBare (s : string) : option (list byte) :=
  match s with
  | "" => Some []
  | String c1 (String c2 s') =>
      h ← digitValue c1;
      l ← digitValue c2;
      b ← Byte.of_N (16 * h + l)%N;
      bs ← decodeBare s';
      Some (b :: bs)
  | String _ "" => None
  end.

(** Modelled from the spec: the hex convention on input, the bytes of a
    hex string with or without the marker. *)
Definition decode (s : string) : option (list byte) :=
  decodeBare (stripMarker s).

End Hex.

Module Word.

(** The slot size: 32 bytes. *)
Definition size : nat := 32%nat.

Definition modulus : Z := 2 ^ 256.

(** A number as one word: big-endian, two's complement, truncated to the
    word. *)
Definition ofZ (z : Z) : list byte := Bytes.bigEndian size (z mod modulus).

(** The unsigned reading of the word at the start of [bs]. *)
Definition toZ (bs : list byte) : Z := Bytes.value (take size bs).

(** The signed (two's complement) reading. *)
Definition toSigned (bs : list byte) : Z :=
  let u := toZ bs in
  if u <? modulus / 2 then u else u - modulus.

(** Number of bytes of the whole words that hold [n] bytes. *)
Definition roundUp (n : nat) : nat := (((n + 31) / 32) * 32)%nat.

End Word.

Module Utf8.

(** Unicode scalar values: code points outside the surrogate range. *)
Definition scalar (c : Z) : bool :=
  ((0 <=? c) && (c <? 55296)) || ((57344 <=? c) && (c <? 1114112)).

Definition encodeOne (c : Z) : list byte :=
  if c <? 128 then [Bytes.ofZ c]
  else if c <? 2048 then
    [Bytes.ofZ (192 + c / 64); Bytes.ofZ (128 + c mod 64)]
  else if c <? 65536 then
    [Bytes.ofZ (224 + c / 4096); Bytes.ofZ (128 + (c / 64) mod 64);
     Bytes.ofZ (128 + c mod 64)]
  else
    [Bytes.ofZ (240 + c / 262144); Bytes.ofZ (128 + (c / 4096) mod 64);
     Bytes.ofZ (128 + (c / 64) mod 64); Bytes.ofZ (128 + c mod 64)].

Definition encode (cs : list Z) : list byte := concat (map encodeOne cs).

(** The payload of a continuation byte [10xxxxxx]. *)
Definition continuation (b : byte) : option Z :=
  let z := Bytes.toZ b in
  if (128 <=? z) && (z <? 192) then Some (z - 128) else None.

(** A decoded code point is kept when it is a scalar value in the range
    of its length class (no overlong form). *)
Definition accept (lo c : Z) : option Z :=
  if (lo <=? c) && scalar c then Some c else None.

Fixpoint decode (bs : list byte) : option (list Z) :=
  match bs with
  | [] => Some []
  | b0 :: r0 =>
      let z0 := Bytes.toZ b0 in
      if z0 <? 128 then cs ← decode r0; Some (z0 :: cs)
      else if z0 <? 192 then None
      else if z0 <? 224 then
        match r0 with
        | b1 :: r1 =>
            x1 ← continuation b1;
            c ← accept 128 ((z0 - 192) * 64 + x1);
            cs ← decode r1; Some (c :: cs)
        | _ => None
        end
      else if z0 <? 240 then
        match r0 with
        | b1 :: b2 :: r2 =>
            x1 ← continuation b1;
            x2 ← continuation b2;
            c ← accept 2048 ((z0 - 224) * 4096 + x1 * 64 + x2);
            cs ← decode r2; Some (c :: cs)
        | _ => None
        end
      else if z0 <? 248 then
        match r0 with
        | b1 :: b2 :: b3 :: r3 =>
            x1 ← continuation b1;
            x2 ← continuation b2;
            x3 ← continuation b3;
            c ← accept 65536 ((z0 - 240) * 262144 + x1 * 4096 + x2 * 64 + x3);
            cs ← decode r3; Some (c :: cs)
        | _ => None
        end
      else None
  end.

End Utf8.

(** ** The type codec

    The codec of [./encoder] and [./decoder], from its specification: one
    rule per type descriptor, 32-byte words, head/tail layout for sequences
    with dynamically sized members. *)

Module Abi.

(** Type descriptors, resolved. *)
Inductive ty : Type :=
| TBool
| TUint (bits : nat)
| TInt (bits : nat)
| TAddress
| TFixedBytes (n : nat)
| TBytes
| TString
| TFixedArray (elem : ty) (n : nat)
| TDynArray (elem : ty).

(** Native values: booleans, numbers, hex strings (addresses and byte
    strings), text (a sequence of code points) and arrays. *)
Inductive value : Type :=
| VBool (b : bool)
| VNum (n : Z)
| VHex (s : string)
| VText (cs : list Z)
| VArr (vs : list value).

Inductive error : Type :=
| UnknownType (descriptor : string)
| ValueMismatch (t : ty)
| Truncated
| MalformedHex
| MalformedText
| UnknownMethod (name : string)
| AmbiguousSignature (name : string)
| ArityMismatch (name : string)
| MissingTopic (name : string).

Inductive result (A : Type) : Type :=
| Ok (a : A)
| Fail (e : error).
Arguments Ok {A} a.
Arguments Fail {A} e.

#[global] Instance result_ret : MRet result := fun _ a => Ok a.

#[global] Instance result_bind : MBind result := fun _ _ k m =>
  match m with
  | Ok a => k a
  | Fail e => Fail e
  end.

(** All results of a list, or its first failure. *)
Fixpoint collect {A} (rs : list (result A)) : result (list A) :=
  match rs with
  | [] => Ok []
  | r :: rs' => a ← r; as' ← collect rs'; Ok (a :: as')
  end.

(** *** Reading a type descriptor *)

Definition decimalDigit (c : ascii) : option N :=
  let n := N_of_ascii c in
  if (48 <=? n)%N && (n <=? 57)%N then Some (n - 48)%N else None.

Fixpoint decimalFrom (acc : N) (s : string) : option N :=
  match s with
  | "" => Some acc
  | String c s' => d ← decimalDigit c; decimalFrom (10 * acc + d)%N s'
  end.

(** A decimal numeral without a leading zero. *)
Definition parseDecimal (s : string) : option nat :=
  match s with
  | "" => None
  | String "0" (String _ _) => None
  | _ => N.to_nat <$> decimalFrom 0%N s
  end.

Definition stripPrefix (p s : string) : option string :=
  if String.prefix p s
  then Some (String.substring (String.length p)
               (String.length s - String.length p) s)
  else None.

Definition sized (mk : nat -> ty) (ok : nat -> bool) (digits : string) : option ty :=
  n ← parseDecimal digits; if ok n then Some (mk n) else None.

Definition bitsOk (n : nat) : bool :=
  (8 <=? n)%nat && (n <=? 256)%nat && (n mod 8 =? 0)%nat.

Definition parseElementary (s : string) : option ty :=
  if String.eqb s "bool" then Some TBool
  else if String.eqb s "address" then Some TAddress
  else if String.eqb s "bytes" then Some TBytes
  else if String.eqb s "string" then Some TString
  else
    match stripPrefix "uint" s with
    | Some d => sized TUint bitsOk d
    | None =>
        match stripPrefix "int" s with
        | Some d => sized TInt bitsOk d
        | None =>
            match stripPrefix "bytes" s with
            | Some d => sized TFixedBytes (fun n => (1 <=? n)%nat) d
            | None => None
            end
        end
    end.

(** The elementary name and the array suffixes of a descriptor. *)
Fixpoint splitBracket (s : string) : string * string :=
  match s with
  | "" => ("", "")
  | String c s' =>
      if Ascii.eqb c "[" then ("", s)
      else let '(a, b) := splitBracket s' in (String c a, b)
  end.

(** The suffixes [[]] and [[N]], left to right, each wrapping the type
    read so far.  [open] is [Some acc] inside a bracket, with the digits
    read since it opened. *)
Fixpoint parseSuffixes (s : string) (open : option (option N)) (t : ty) : option ty :=
  match s, open with
  | "", None => Some t
  | "", Some _ => None
  | String c s', None =>
      if Ascii.eqb c "[" then parseSuffixes s' (Some None) t else None
  | String c s', Some acc =>
      if Ascii.eqb c "]" then
        parseSuffixes s' None
          match acc with
          | None => TDynArray t
          | Some n => TFixedArray t (N.to_nat n)
          end
      else
        d ← decimalDigit c;
        match acc with
        | Some 0%N => None
        | _ => parseSuffixes s' (Some (Some (10 * default 0%N acc + d)%N)) t
        end
  end.

(** Modelled from the spec: the descriptors [./encoder] resolves, an
    elementary type ([bool], [address], [uintN], [intN], [bytesN], [bytes],
    [string]) followed by array suffixes. *)
Definition parseType (descriptor : string) : option ty :=
  let '(base, suffixes) := splitBracket descriptor in
  t ← parseElementary base;
  parseSuffixes suffixes None t.

(** The types descriptors resolve to: integer widths of whole bytes up
    to a word, fixed byte strings of at least one byte. *)
Fixpoint supported (t : ty) : bool :=
  match t with
  | TUint n | TInt n => bitsOk n
  | TFixedBytes n => (1 <=? n)%nat
  | TFixedArray e _ | TDynArray e => supported e
  | _ => true
  end.

(** *** Layout *)

Fixpoint isDynamic (t : ty) : bool :=
  match t with
  | TBytes | TString | TDynArray _ => true
  | TFixedArray e _ => isDynamic e
  | _ => false
  end.

(** Bytes taken by the encoding of a static type. *)
Fixpoint staticSize (t : ty) : nat :=
  match t with
  | TFixedBytes n => Word.roundUp n
  | TFixedArray e n => (n * staticSize e)%nat
  | _ => Word.size
  end.

(** Bytes a member of type [t] takes in the head of a sequence. *)
Definition headSize (t : ty) : nat :=
  if isDynamic t then Word.size else staticSize t.

(** A member of a sequence, encoded, with the kind of its type. *)
Definition item : Type := bool * list byte.

(** A head slot before offsets are known: the bytes of a static member,
    or a placeholder that remembers where in the tail its member starts. *)
Inductive slot : Type :=
| Inline (bs : list byte)
| Pointer (tailOffset : nat).

Definition slotLength (s : slot) : nat :=
  match s with
  | Inline bs => length bs
  | Pointer _ => Word.size
  end.

(** First pass: static members go to the head, dynamic ones leave a
    placeholder there and are appended to the tail, [tailLength] bytes
    long so far. *)
Fixpoint place (items : list item) (tailLength : nat) : list slot * list byte :=
  match items with
  | [] => ([], [])
  | (true, e) :: items' =>
      let '(hs, tl) := place items' (tailLength + length e)%nat in
      (Pointer tailLength :: hs, e ++ tl)
  | (false, e) :: items' =>
      let '(hs, tl) := place items' tailLength in
      (Inline e :: hs, tl)
  end.

(** Second pass: a placeholder becomes the offset of its member from the
    start of the sequence, head length plus tail before it. *)
Definition resolve (headLength : nat) (s : slot) : list byte :=
  match s with
  | Inline bs => bs
  | Pointer off => Word.ofZ (Z.of_nat (headLength + off))
  end.

(** Modelled from the spec: the head/tail layout of [./encoder] (static
    members in the head, dynamic ones in the tail behind an offset word
    that is filled in once the head length is known). *)
Definition headTail (items : list item) : list byte :=
  let '(hs, tl) := place items 0 in
  let headLength := sum_list (map slotLength hs) in
  concat (map (resolve headLength) hs) ++ tl.

(** *** Encoding *)

Definition hexOfLength (t : ty) (n : nat) (s : string) : result (list byte) :=
  match Hex.decode s with
  | Some bs => if (length bs =? n)%nat then Ok bs else Fail (ValueMismatch t)
  | None => Fail (ValueMismatch t)
  end.

(** A length word, then the content padded on the right to whole words. *)
Definition encodeBytes (bs : list byte) : list byte :=
  Word.ofZ (Z.of_nat (length bs)) ++ Bytes.padRight Word.size bs.

(** Modelled from the spec: the encoding rules of [./encoder], type by
    type.  A boolean is the word 0 or 1; an integer is a two's complement
    word; an address is 20 bytes padded on the left; [bytesN] is padded on
    the right to whole words; [bytes] and [string] are a length word and
    padded content; the members of an array are laid out in sequence, in
    place when their type is static and as a head/tail block when it is
    dynamic, after a length word when the array is dynamic.  A value of the
    wrong shape fails before anything is emitted. *)
Fixpoint encode (t : ty) (v : value) : result (list byte) :=
  match t, v with
  | TBool, VBool b => Ok (Word.ofZ (if b then 1 else 0))
  | TUint _, VNum z => Ok (Word.ofZ z)
  | TInt _, VNum z => Ok (Word.ofZ z)
  | TAddress, VHex s =>
      bs ← hexOfLength t 20 s; Ok (Bytes.padLeft Word.size bs)
  | TFixedBytes n, VHex s =>
      bs ← hexOfLength t n s; Ok (Bytes.padRight Word.size bs)
  | TBytes, VHex s =>
      match Hex.decode s with
      | Some bs => Ok (encodeBytes bs)
      | None => Fail (ValueMismatch t)
      end
  | TString, VText cs =>
      if forallb Utf8.scalar cs then Ok (encodeBytes (Utf8.encode cs))
      else Fail (ValueMismatch t)
  | TFixedArray e n, VArr vs =>
      if (length vs =? n)%nat then
        es ← collect (map (encode e) vs);
        Ok (headTail (map (pair (isDynamic e)) es))
      else Fail (ValueMismatch t)
  | TDynArray e, VArr vs =>
      es ← collect (map (encode e) vs);
      Ok (Word.ofZ (Z.of_nat (length vs)) ++ headTail (map (pair (isDynamic e)) es))
  | _, _ => Fail (ValueMismatch t)
  end.

(** *** Decoding *)

(** The word at byte [pos] of [blk]. *)
Definition readWord (blk : list byte) (pos : nat) : result Z :=
  if (pos + Word.size <=? length blk)%nat then Ok (Word.toZ (drop pos blk))
  else Fail Truncated.

Definition need (n : nat) (data : list byte) : result unit :=
  if (n <=? length data)%nat then Ok tt else Fail Truncated.

(** How to read one member of a sequence: its kind, the size of its head
    slot and the decoder of its type. *)
Record reader : Type := Reader {
  dynamic : bool;
  headBytes : nat;
  decoder : list byte -> result value
}.

(** The members of the sequence that starts [blk], heads from [pos] on:
    a static member is read in place, a dynamic one where the offset in
    its head word points. *)
Fixpoint decodeSlots (blk : list byte) (pos : nat) (rs : list reader)
    : result (list value) :=
  match rs with
  | [] => Ok []
  | r :: rs' =>
      v ← (if dynamic r then
             off ← readWord blk pos; decoder r (drop (Z.to_nat off) blk)
           else decoder r (drop pos blk));
      vs ← decodeSlots blk (pos + (if dynamic r then Word.size else headBytes r)) rs';
      Ok (v :: vs)
  end.

(** A reader fits an encoded member when it has its kind, its static size,
    and reads its value back from any block the encoding starts. *)
Definition reads (it : item) (r : reader) (v : value) : Prop :=
  dynamic r = it.1
  /\ (it.1 = false -> headBytes r = length it.2)
  /\ forall rest, decoder r (it.2 ++ rest) = Ok v.

(** The content after a length word. *)
Definition decodeBytes (data : list byte) : result (list byte) :=
  len ← readWord data 0;
  _ ← need (Word.size + Z.to_nat len) data;
  Ok (take (Z.to_nat len) (drop Word.size data)).

(** Modelled from the spec: the decoding rules of [./decoder], type by
    type, on the bytes that start with the encoding.  A boolean is true for
    a nonzero word; [intN] reads the sign bit; an address is the last 20
    bytes of its word, printed with the marker; [bytesN] drops the padding;
    [bytes] and [string] read the length, then the content (as UTF-8 for
    [string]); arrays read their members slot by slot. *)
Fixpoint decode (t : ty) (data : list byte) : result value :=
  match t with
  | TBool => w ← readWord data 0; Ok (VBool (negb (w =? 0)))
  | TUint _ => w ← readWord data 0; Ok (VNum w)
  | TInt _ => _ ← readWord data 0; Ok (VNum (Word.toSigned data))
  | TAddress =>
      _ ← readWord data 0; Ok (VHex (Hex.render (take 20 (drop 12 data))))
  | TFixedBytes n =>
      _ ← need (Word.roundUp n) data; Ok (VHex (Hex.render (take n data)))
  | TBytes => bs ← decodeBytes data; Ok (VHex (Hex.render bs))
  | TString =>
      bs ← decodeBytes data;
      match Utf8.decode bs with
      | Some cs => Ok (VText cs)
      | None => Fail MalformedText
      end
  | TFixedArray e n =>
      _ ← need (n * headSize e) data;
      vs ← decodeSlots data 0
             (replicate n (Reader (isDynamic e) (headSize e) (decode e)));
      Ok (VArr vs)
  | TDynArray e =>
      len ← readWord data 0;
      let n := Z.to_nat len in
      let blk := drop Word.size data in
      _ ← need (n * headSize e) blk;
      vs ← decodeSlots blk 0
             (replicate n (Reader (isDynamic e) (headSize e) (decode e)));
      Ok (VArr vs)
  end.

(** *** The codec on descriptors and hex strings *)

(** An unknown descriptor fails with the descriptor. *)
Definition resolveType (descriptor : string) : result ty :=
  match parseType descriptor with
  | Some t => Ok t
  | None => Fail (UnknownType descriptor)
  end.

(** Modelled from the spec: [encodeValue(type, value)] of [./encoder],
    giving the hex of the words. *)
Definition encodeValue (descriptor : string) (v : value) : result string :=
  t ← resolveType descriptor;
  bs ← encode t v;
  Ok (Hex.encode bs).

(** Modelled from the spec: [decodeValue(type, hexSlice)] of [./decoder],
    on hex with or without the marker. *)
Definition decodeValue (descriptor : string) (hex : string) : result value :=
  t ← resolveType descriptor;
  match Hex.decode hex with
  | Some bs => decode t bs
  | None => Fail MalformedHex
  end.

(** *** Valid native values *)

(** A hex string in the form the codec prints: the marker, then lowercase
    digits, two per byte. *)
Definition canonicalHex (len : option nat) (s : string) : bool :=
  match Hex.decode s with
  | Some bs =>
      String.eqb s (Hex.render bs)
      && match len with
         | Some n => (length bs =? n)%nat
         | None => true
         end
  | None => false
  end.

(** The values of a type: numbers in its range, hex strings of its length
    in printed form, text of scalar values, arrays of values of the member
    type (of the declared length when it is fixed, of a length that is a
    word when it is not). *)
Fixpoint wellFormed (t : ty) (v : value) : bool :=
  match t, v with
  | TBool, VBool _ => true
  | TUint n, VNum z => (0 <=? z) && (z <? 2 ^ Z.of_nat n)
  | TInt n, VNum z => (- 2 ^ (Z.of_nat n - 1) <=? z) && (z <? 2 ^ (Z.of_nat n - 1))
  | TAddress, VHex s => canonicalHex (Some 20%nat) s
  | TFixedBytes n, VHex s => canonicalHex (Some n) s
  | TBytes, VHex s => canonicalHex None s
  | TString, VText cs => forallb Utf8.scalar cs
  | TFixedArray e n, VArr vs => (length vs =? n)%nat && forallb (wellFormed e) vs
  | TDynArray e, VArr vs =>
      (Z.of_nat (length vs) <? Word.modulus) && forallb (wellFormed e) vs
  | _, _ => false
  end.

(** Offsets and lengths are words: an encoding has to be shorter than
    [2^256] bytes. *)
Definition fitsWord (t : ty) (v : value) : bool :=
  match encode t v with
  | Ok bs => Z.of_nat (length bs) <? Word.modulus
  | Fail _ => false
  end.

Definition valid (t : ty) (v : value) : bool := wellFormed t v && fitsWord t v.

End Abi.

(** ** ABI definitions *)

Module AbiDef.

(** An input or output of a function: [{name, type}]. *)
Record parameter : Type := Param { paramName : string; paramType : string }.

(** An input of an event: [{name, type, indexed}]. *)
Record eventInput : Type :=
  EventInput { inputName : string; inputType : string; indexed : bool }.

Record functionDescriptor : Type := FunctionDescriptor {
  functionName : string;
  inputs : list parameter;
  outputs : list parameter;
  constant : bool;
  payable : bool
}.

Record eventDescriptor : Type := EventDescriptor {
  eventName : string;
  eventInputs : list eventInput
}.

Inductive entry : Type :=
| Function (f : functionDescriptor)
| Event (e : eventDescriptor).

(** The textual form [name(type1,type2,...)] that is hashed. *)
Definition signature (name : string) (types : list string) : string :=
  name +:+ "(" +:+ String.concat "," types +:+ ")".

Definition functionsNamed (abi : list entry) (name : string) : list functionDescriptor :=
  omap (fun en =>
          match en with
          | Function f => if String.eqb (functionName f) name then Some f else None
          | Event _ => None
          end) abi.

Definition eventsOf (abi : list entry) : list eventDescriptor :=
  omap (fun en =>
          match en with
          | Event e => Some e
          | Function _ => None
          end) abi.

End AbiDef.

(** ** The call encoder *)

Module Encoder.
Import Abi AbiDef.

(** An argument list fits a function when there is one value of the
    declared type per input. *)
Fixpoint compatible (ps : list parameter) (args : list value) : bool :=
  match ps, args with
  | [], [] => true
  | p :: ps', v :: args' =>
      match parseType (paramType p) with
      | Some t => wellFormed t v && compatible ps' args'
      | None => false
      end
  | _, _ => false
  end.

(** Modelled from the spec: signature resolution in [./encoder].
    The function a call means: the one of that name; among overloads the
    one with as many inputs as arguments; among those the one the
    arguments fit. *)
Definition resolveMethod (abi : list entry) (name : string) (args : list value)
    : result functionDescriptor :=
  match functionsNamed abi name with
  | [] => Fail (UnknownMethod name)
  | [f] => Ok f
  | fs =>
      match filter (fun f => length (inputs f) = length args) fs with
      | [f] => Ok f
      | fs' =>
          match filter (fun f => compatible (inputs f) args = true) fs' with
          | [f] => Ok f
          | _ => Fail (AmbiguousSignature name)
          end
      end
  end.

Definition encodeArgument (p : parameter) (v : value) : result item :=
  t ← resolveType (paramType p);
  e ← encode t v;
  Ok (isDynamic t, e).

(** The arguments in declared order, head then tail. *)
Definition encodeArguments (ps : list parameter) (args : list value)
    : result (list byte) :=
  items ← collect (zip_with encodeArgument ps args);
  Ok (headTail items).

Definition selectorLength : nat := 4.

Section Hashing.
(** The one-way hash, on byte strings. *)
Variable hash : list byte -> list byte.

(** Modelled from the spec: the selector computation of [./encoder].
    The selector of a signature: the first bytes of its hash. *)
Definition selector (name : string) (types : list string) : list byte :=
  take selectorLength (hash (list_byte_of_string (signature name types))).

(** Modelled from the spec: [encodeCall(abi, methodName, args)] of
    [./encoder]; the payload is a hex string with the marker. *)
Definition encodeCall (abi : list entry) (name : string) (args : list value)
    : result string :=
  f ← resolveMethod abi name args;
  if (length (inputs f) =? length args)%nat then
    body ← encodeArguments (inputs f) args;
    Ok (Hex.render (selector (functionName f) (map paramType (inputs f)) ++ body))
  else Fail (ArityMismatch name).

End Hashing.

End Encoder.

(** ** The result decoder and the event log decoder *)

Module Decoder.
Import Abi AbiDef.

Definition readerOf (t : ty) : reader :=
  Reader (isDynamic t) (headSize t) (decode t).

(** The values of a sequence of types laid out head then tail in [blk]. *)
Definition decodeTuple (ts : list ty) (blk : list byte) : result (list value) :=
  _ ← need (sum_list (map headSize ts)) blk;
  decodeSlots blk 0 (map readerOf ts).

(** Modelled from the spec: [decodeResult(outputTypes, hexBlob)] of
    [./decoder]. *)
Definition decodeResult (outputTypes : list string) (hexBlob : string)
    : result (list value) :=
  ts ← collect (map resolveType outputTypes);
  match Hex.decode hexBlob with
  | Some blk => decodeTuple ts blk
  | None => Fail MalformedHex
  end.

(** A raw log entry as the node returns it. *)
Record logEntry : Type := LogEntry {
  address : string;
  topics : list string;
  data : string
}.

(** What the decoder returns for one entry: the decoded event, or the
    entry itself, as it came when no event matches and with the error
    when its content does not decode. *)
Inductive decodedLog : Type :=
| Decoded (entry : logEntry) (event : string) (fields : list (string * value))
| Unmatched (raw : logEntry)
| Undecodable (raw : logEntry) (e : error).

Definition isDecoded (d : decodedLog) : bool :=
  match d with
  | Decoded _ _ _ => true
  | _ => false
  end.

(** The entry a result stands for. *)
Definition entryOf (d : decodedLog) : logEntry :=
  match d with
  | Decoded e _ _ | Unmatched e | Undecodable e _ => e
  end.

(** Removes the marker from every hex string of a value. *)
Fixpoint stripValue (v : value) : value :=
  match v with
  | VHex s => VHex (Hex.stripMarker s)
  | VArr vs => VArr (map stripValue vs)
  | _ => v
  end.

(** The key of a field: its name, or its position when it has none. *)
Definition fieldKey (position : nat) (name : string) : string :=
  if String.eqb name "" then pretty position else name.

(** Indexed and non-indexed values back in declaration order. *)
Fixpoint mergeFields (position : nat) (ins : list eventInput)
    (fromTopics fromData : list value) : list (string * value) :=
  match ins with
  | [] => []
  | i :: ins' =>
      if indexed i then
        match fromTopics with
        | v :: vs => (fieldKey position (inputName i), v)
                     :: mergeFields (S position) ins' vs fromData
        | [] => []
        end
      else
        match fromData with
        | v :: vs => (fieldKey position (inputName i), v)
                     :: mergeFields (S position) ins' fromTopics vs
        | [] => []
        end
  end.

(** An indexed input from its topic: by the codec, or as the opaque hash
    the topic holds when the type is dynamic. *)
Definition decodeIndexed (i : eventInput) (topic : string) : result value :=
  t ← resolveType (inputType i);
  match Hex.decode topic with
  | Some bs => if isDynamic t then Ok (VHex (Hex.render bs)) else decode t bs
  | None => Fail MalformedHex
  end.

Fixpoint decodeTopics (name : string) (ins : list eventInput) (ts : list string)
    : result (list value) :=
  match ins with
  | [] => Ok []
  | i :: ins' =>
      match ts with
      | t :: ts' =>
          v ← decodeIndexed i t;
          vs ← decodeTopics name ins' ts';
          Ok (v :: vs)
      | [] => Fail (MissingTopic name)
      end
  end.

Definition decodeFields (ev : eventDescriptor) (ts : list string) (blob : string)
    (stripHexPrefix : bool) : result (list (string * value)) :=
  let ins := eventInputs ev in
  fromTopics ← decodeTopics (eventName ev) (filter (fun i => indexed i = true) ins) ts;
  fromData ← decodeResult (map inputType (filter (fun i => indexed i = false) ins)) blob;
  let strip := if stripHexPrefix then map stripValue else id in
  Ok (mergeFields 0 ins (strip fromTopics) (strip fromData)).

Section Hashing.
Variable hash : list byte -> list byte.

(** The hash an event is filed under: that of its signature over all
    its inputs. *)
Definition eventTopic (ev : eventDescriptor) : list byte :=
  hash (list_byte_of_string
          (signature (eventName ev) (map inputType (eventInputs ev)))).

Definition topicMatches (topic : string) (ev : eventDescriptor) : bool :=
  match Hex.decode topic with
  | Some bs => String.eqb (Hex.encode bs) (Hex.encode (eventTopic ev))
  | None => false
  end.

(** The first candidate whose hash is the topic. *)
Definition matchEvent (candidates : list eventDescriptor) (topic : string)
    : option eventDescriptor :=
  List.find (topicMatches topic) candidates.

(** Modelled from the spec: the steps of the event log decoder for one
    entry: look up the contract, match the first topic, decode. *)
Definition decodeEntry (contractMetadata : gmap string (list entry))
    (stripHexPrefix : bool) (e : logEntry) : decodedLog :=
  match contractMetadata !! address e with
  | None => Unmatched e
  | Some abi =>
      match topics e with
      | [] => Unmatched e
      | t0 :: ts =>
          match matchEvent (eventsOf abi) t0 with
          | None => Unmatched e
          | Some ev =>
              match decodeFields ev ts (data e) stripHexPrefix with
              | Ok fields => Decoded e (eventName ev) fields
              | Fail err => Undecodable e err
              end
          end
      end
  end.

(** Modelled from the spec: [decodeSearchLog(rawResults,
    contractMetadataMap, stripHexPrefix)] of [./decoder]; the entries in
    turn, each result pushed on the output. *)
Definition decodeSearchLog (rawResults : list logEntry)
    (contractMetadata : gmap string (list entry)) (stripHexPrefix : bool)
    : list decodedLog :=
  fold_left
    (fun out e => out ++ [decodeEntry contractMetadata stripHexPrefix e])
    rawResults [].

End Hashing.

End Decoder.

(** ** Sample data

    Concrete inputs on which the definitions are run below. *)

Module Samples.
Import Abi AbiDef Decoder.

(** A transport that answers every request with an empty result list and
    counts the requests. *)
Definition countingTransport (c : Web3.call) (n : nat) : Web3.outcome * nat :=
  (Web3.Returns (Js.Fulfilled (Js.Arr [])), S n).

(** A transport whose node answers [null]. *)
Definition nullTransport (c : Web3.call) (n : nat) : Web3.outcome * nat :=
  (Web3.Returns (Js.Fulfilled Js.Null), S n).

(** A transport that is down. *)
Definition downTransport (c : Web3.call) (n : nat) : Web3.outcome * nat :=
  (Web3.Returns (Js.Rejected (Js.Err "ECONNREFUSED")), S n).

(** A decoder that tags what it is given. *)
Definition taggingDecoder (results md rm : Js.value) : Js.completion Js.value :=
  Js.Normal (Js.Obj {[ "decoded" := results ]}).

Definition start : Web3.state (W := nat) := Web3.State 0%nat [].

Definition block (n : positive) : Js.value := Js.Num (S754_finite false n 0).

(** A stand-in for the hash: the message cut or zero-filled to 32 bytes. *)
Definition toyHash (m : list byte) : list byte := take 32 (m ++ replicate 32 x00).

Definition transfer : functionDescriptor :=
  FunctionDescriptor "transfer"
    [Param "to" "address"; Param "value" "uint256"]
    [Param "" "bool"] false false.

Definition transferEvent : eventDescriptor :=
  EventDescriptor "Transfer"
    [EventInput "from" "address" true; EventInput "to" "address" true;
     EventInput "value" "uint256" false].

Definition token : list entry := [Function transfer; Event transferEvent].

Definition alice : string := "0x00000000000000000000000000000000000a11ce".

Definition bob : string := "0x0000000000000000000000000000000000000b0b".

Definition tokenAddress : string := "0xc0ffee0000000000000000000000000000000001".

Definition unknownAddress : string := "0xdead000000000000000000000000000000000002".

Definition metadata : gmap string (list entry) := {[ tokenAddress := token ]}.

Definition wordOf (hex : string) : string :=
  Hex.render (Bytes.padLeft 32 (default [] (Hex.decode hex))).

(** A [Transfer(alice, bob, value)] log of the token. *)
Definition transferLog (value : Z) : logEntry :=
  LogEntry tokenAddress
    [Hex.render (eventTopic toyHash transferEvent); wordOf alice; wordOf bob]
    (Hex.render (Word.ofZ value)).

(** A log of a contract the metadata does not know. *)
Definition strayLog : logEntry :=
  LogEntry unknownAddress
    [Hex.render (eventTopic toyHash transferEvent); wordOf alice; wordOf bob]
    (Hex.render (Word.ofZ 7)).

(** A [Transfer] log whose data is cut short. *)
Definition truncatedLog : logEntry :=
  LogEntry tokenAddress
    [Hex.render (eventTopic toyHash transferEvent); wordOf alice; wordOf bob]
    "0x00ff".

Definition nested : value :=
  VArr [VArr [VText [104; 105]; VText []]; VArr [VText [8364; 128512]]].

End Samples.

(** * Properties *)

(** ** The facade over the transport *)

Module FacadeFacts.
Import Js Protocols Web3.

Section Facade.
Context {W : Type}.
Variable transport : call -> W -> outcome * W.
Variable decodeSearchLog : value -> value -> value -> completion value.

(** What one [rawCall] does to the state and gives its caller. *)
Lemma rawCall_run m ps (st : state) :
  rawCall transport m ps st =
    (match fst (transport (Call m ps) (world st)) with
     | Throws e => Throw e
     | Returns p => Normal p
     end,
     State (snd (transport (Call m ps) (world st))) (issued st ++ [Call m ps])).
Proof.
  unfold rawCall. destruct (transport (Call m ps) (world st)) as [o w].
  reflexivity.
Qed.

Lemma rawCall_issued m ps (st : state) :
  issued (snd (rawCall transport m ps st)) = issued st ++ [Call m ps].
Proof. rewrite rawCall_run. reflexivity. Qed.

(** The guards of [searchlogs] pass exactly on two finite numbers and
    two filters that are a string or an array. *)
Lemma offending_nil fromBlock toBlock addresses topics :
  offending fromBlock toBlock addresses topics = [] <->
  isFinite fromBlock = true /\ isFinite toBlock = true
  /\ is_Some (canonical addresses) /\ is_Some (canonical topics).
Proof.
  unfold offending, canonical.
  destruct (isFinite fromBlock), (isFinite toBlock),
    (isString addresses), (isArray addresses),
    (isString topics), (isArray topics); simpl;
    split; intros H; try discriminate; try done;
    repeat split; eauto;
    destruct H as (? & ? & [? ?] & [? ?]); discriminate.
Qed.

(** With the guards passed, [searchlogs] is one [rawCall] and a [then]. *)
Lemma searchlogs_run fromBlock toBlock addresses topics md rm addrs tops (st : state) :
  isFinite fromBlock = true -> isFinite toBlock = true ->
  canonical addresses = Some addrs -> canonical topics = Some tops ->
  searchlogs transport decodeSearchLog fromBlock toBlock addresses topics md rm st =
    bind (rawCall transport "searchlogs"
            (Some [fromBlock; toBlock;
                   Obj {[ "addresses" := addrs ]}; Obj {[ "topics" := tops ]}]))
         (fun p => ret (then_ p (fun results => decodeSearchLog results md rm))) st.
Proof.
  intros Hf Ht Ha Hp. unfold searchlogs, canonical in *. rewrite Hf, Ht. simpl.
  destruct (isString addresses), (isArray addresses); try discriminate;
    destruct (isString topics), (isArray topics); try discriminate;
    injection Ha as <-; injection Hp as <-; reflexivity.
Qed.

(** Closes a goal once the failing guard of [searchlogs] is reached: the
    message is read off the run. *)
Local Ltac thrown :=
  eexists _, _, _; split; [reflexivity|]; split; [|reflexivity]; reflexivity.

(** C5. [searchlogs] fails fast on bad arguments: when [fromBlock] or
    [toBlock] is not a finite number, or [addresses] or [topics] is
    neither a string nor an array, the call throws an [Error] whose
    message starts with the name of the first offending parameter, and
    the state is the one it started from: no request reached the
    transport. *)
Theorem searchlogs_fails_fast fromBlock toBlock addresses topics md rm (st : state) :
  isFinite fromBlock = false \/ isFinite toBlock = false
  \/ (isString addresses = false /\ isArray addresses = false)
  \/ (isString topics = false /\ isArray topics = false) ->
  exists name others msg,
    offending fromBlock toBlock addresses topics = name :: others
    /\ String.prefix name msg = true
    /\ searchlogs transport decodeSearchLog
         fromBlock toBlock addresses topics md rm st = (Throw (Err msg), st).
Proof.
  intros Hbad. unfold searchlogs, offending.
  destruct (isFinite fromBlock) eqn:Hf; simpl.
  2: { thrown. }
  destruct (isFinite toBlock) eqn:Ht; simpl.
  2: { thrown. }
  destruct (isString addresses) eqn:Has; simpl.
  - destruct (isString topics) eqn:Hts; simpl.
    + destruct Hbad as [?|[?|[[? _]|[? _]]]]; discriminate.
    + destruct (isArray topics) eqn:Hta; simpl.
      * destruct Hbad as [?|[?|[[? _]|[_ ?]]]]; discriminate.
      * thrown.
  - destruct (isArray addresses) eqn:Haa; simpl.
    + destruct (isString topics) eqn:Hts; simpl.
      * destruct Hbad as [?|[?|[[_ ?]|[? _]]]]; discriminate.
      * destruct (isArray topics) eqn:Hta; simpl.
        -- destruct Hbad as [?|[?|[[_ ?]|[_ ?]]]]; discriminate.
        -- thrown.
    + thrown.
Qed.

(** C6. [searchlogs] resolves its filters once: a string becomes a
    one-element array, an array is taken as it is, and the one request
    issued carries these sequences, [addresses] under the key
    [addresses] of the third parameter and [topics] under the key
    [topics] of the fourth. *)
Theorem searchlogs_canonical_filters
    fromBlock toBlock addresses topics md rm addrs tops (st : state) :
  isFinite fromBlock = true -> isFinite toBlock = true ->
  canonical addresses = Some addrs -> canonical topics = Some tops ->
  (isString addresses = true -> addrs = Arr [addresses])
  /\ (isArray addresses = true -> addrs = addresses)
  /\ (isString topics = true -> tops = Arr [topics])
  /\ (isArray topics = true -> tops = topics)
  /\ issued (snd (searchlogs transport decodeSearchLog
                    fromBlock toBlock addresses topics md rm st))
     = issued st ++
         [Call "searchlogs"
            (Some [fromBlock; toBlock;
                   Obj {[ "addresses" := addrs ]}; Obj {[ "topics" := tops ]}])].
Proof.
  intros Hf Ht Ha Hp.
  rewrite (searchlogs_run _ _ _ _ md rm _ _ st Hf Ht Ha Hp).
  unfold canonical in Ha, Hp.
  repeat split.
  - intros E. rewrite E in Ha. congruence.
  - intros E. destruct addresses; try discriminate. simpl in Ha. congruence.
  - intros E. rewrite E in Hp. congruence.
  - intros E. destruct topics; try discriminate. simpl in Hp. congruence.
  - unfold bind. rewrite rawCall_run.
    destruct (fst (transport _ (world st))); reflexivity.
Qed.

(** C7. When the transport answers the [searchlogs] request with a
    promise fulfilled with [results], the promise [searchlogs] returns
    is settled by [decodeSearchLog(results, contractMetadata,
    removeHexPrefix)]: fulfilled with what the decoder returns, rejected
    with what it throws; the request is the only one issued. *)
Theorem searchlogs_pipes_into_decoder
    fromBlock toBlock addresses topics md rm addrs tops results (st : state) :
  isFinite fromBlock = true -> isFinite toBlock = true ->
  canonical addresses = Some addrs -> canonical topics = Some tops ->
  fst (transport
         (Call "searchlogs"
            (Some [fromBlock; toBlock;
                   Obj {[ "addresses" := addrs ]}; Obj {[ "topics" := tops ]}]))
         (world st)) = Returns (Fulfilled results) ->
  exists p,
    fst (searchlogs transport decodeSearchLog
           fromBlock toBlock addresses topics md rm st) = Normal p
    /\ (forall decoded, decodeSearchLog results md rm = Normal decoded ->
          p = Fulfilled decoded)
    /\ (forall e, decodeSearchLog results md rm = Throw e -> p = Rejected e)
    /\ length (issued (snd (searchlogs transport decodeSearchLog
                              fromBlock toBlock addresses topics md rm st)))
       = S (length (issued st)).
Proof.
  intros Hf Ht Ha Hp Hres.
  rewrite (searchlogs_run _ _ _ _ md rm _ _ st Hf Ht Ha Hp).
  unfold bind. rewrite rawCall_run, Hres. simpl.
  eexists. split; [reflexivity|].
  repeat split.
  - intros d Hd. rewrite Hd. reflexivity.
  - intros e He. rewrite He. reflexivity.
  - rewrite length_app. simpl. lia.
Qed.

(** C8. The pass-through methods forward their parameters to the
    transport with no transformation: [getblock] is [rawCall('getblock',
    [blockHash, verbose])] and [sendtoaddress] is
    [rawCall('sendtoaddress', [luxaddress, amount, comment, commentTo])],
    each argument forwarded unchanged when it is given.  When [verbose] is
    [undefined] (or omitted) the request carries [true] in its place, so
    [getblock(h)] asks for [[h, true]]; when [comment] or [commentTo] is
    [undefined] the request carries the empty string in its place, so
    [sendtoaddress(a, m)] asks for [[a, m, '', '']].  What the transport
    returns or throws is what the method returns or throws, and the
    request is recorded once. *)
Theorem pass_through_forwards blockHash verbose luxaddress amount comment commentTo :
  getblock transport blockHash verbose
    = rawCall transport "getblock"
        (Some [blockHash;
               match verbose with
               | Undefined => Bool true
               | _ => verbose
               end])
  /\ sendtoaddress transport luxaddress amount comment commentTo
    = rawCall transport "sendtoaddress"
        (Some [luxaddress; amount;
               match comment with
               | Undefined => Str ""
               | _ => comment
               end;
               match commentTo with
               | Undefined => Str ""
               | _ => commentTo
               end])
  /\ getblock transport blockHash Undefined
    = rawCall transport "getblock" (Some [blockHash; Bool true])
  /\ sendtoaddress transport luxaddress amount Undefined Undefined
    = rawCall transport "sendtoaddress" (Some [luxaddress; amount; Str ""; Str ""])
  /\ (verbose <> Undefined ->
      getblock transport blockHash verbose
        = rawCall transport "getblock" (Some [blockHash; verbose]))
  /\ (comment <> Undefined -> commentTo <> Undefined ->
      sendtoaddress transport luxaddress amount comment commentTo
        = rawCall transport "sendtoaddress"
            (Some [luxaddress; amount; comment; commentTo]))
  /\ (forall m ps (st : state),
        fst (rawCall transport m ps st)
          = match fst (transport (Call m ps) (world st)) with
            | Throws e => Throw e
            | Returns p => Normal p
            end
        /\ issued (snd (rawCall transport m ps st)) = issued st ++ [Call m ps]).
Proof.
  split; [unfold getblock; destruct verbose; reflexivity|].
  split; [unfold sendtoaddress; destruct comment, commentTo; reflexivity|].
  split; [reflexivity|].
  split; [reflexivity|].
  split.
  { intros Hv. unfold getblock. destruct verbose; try reflexivity. congruence. }
  split.
  { intros Hc Hct. unfold sendtoaddress.
    destruct comment; try congruence; destruct commentTo; try congruence; reflexivity. }
  intros m ps st. split.
  - rewrite rawCall_run. reflexivity.
  - apply rawCall_issued.
Qed.

(** C9. [isConnected] neither throws nor rejects, whatever the
    transport does.  Its promise is fulfilled with [true] exactly when
    [rawCall('getnetworkinfo')] returns a promise fulfilled with a value
    whose [typeof] is ['object']; it is fulfilled with [false] when the
    transport throws, when its promise is rejected, and when it is
    fulfilled with a value of another type. *)
Theorem isConnected_never_rejects (st : state) :
  let answer := fst (transport (Call "getnetworkinfo" None) (world st)) in
  exists p,
    fst (isConnected transport st) = Normal p
    /\ (forall e, p <> Rejected e)
    /\ (p = Fulfilled (Bool true) <->
        exists v, answer = Returns (Fulfilled v) /\ typeof v = "object")
    /\ (forall e, answer = Returns (Rejected e) -> p = Fulfilled (Bool false))
    /\ (forall e, answer = Throws e -> p = Fulfilled (Bool false))
    /\ (forall v, answer = Returns (Fulfilled v) -> typeof v <> "object" ->
          p = Fulfilled (Bool false)).
Proof.
  intros answer. unfold isConnected, async, atryCatch, abind, await, aret.
  rewrite rawCall_run. fold answer.
  assert (Hobj : forall v : value,
             String.eqb (typeof v) "object" = true <-> typeof v = "object")
    by (intros; apply String.eqb_eq).
  destruct answer as [e|[v|e|]] eqn:Ha; simpl; eexists; (split; [reflexivity|]);
    try (destruct (String.eqb (typeof v) "object") eqn:Hty;
         [apply Hobj in Hty
         |assert (typeof v <> "object") by (rewrite <- Hobj; congruence)]);
    repeat split; intros;
    repeat match goal with
           | H : exists _, _ |- _ => destruct H as (? & ? & ?)
           end;
    try discriminate; try congruence; eauto.
Qed.

End Facade.

(** The falsy values are the ones listed. *)
Lemma truthy_false p :
  truthy p = false <->
  p = Undefined \/ p = Null \/ p = Bool false \/ p = Str ""
  \/ p = Num S754_nan \/ exists s, p = Num (S754_zero s).
Proof.
  split.
  - destruct p as [| |[]|[]|s| | | | | |]; simpl; intros H; try discriminate; eauto 10.
    apply negb_false_iff, String.eqb_eq in H. subst. eauto 10.
  - intros [->|[->|[->|[->|[->|[s ->]]]]]]; reflexivity.
Qed.

(** C10, as amended.  [initProtocol] classifies every input: a falsy one
    throws ['protocol cannot be undefined.']; a non-empty string gives a
    new [HttpProtocol] built from it; any other value without a
    [rawCall] function throws ['protocol is not a compatible Web3
    Provider.']; a value with a [rawCall] function is returned as it is.
    So the protocol of a constructed [Web3] instance exposes
    [rawCall]. *)
Theorem initProtocol_classifies p :
  (truthy p = false ->
     initProtocol p = Throw (Err "protocol cannot be undefined."))
  /\ (forall s, p = Str s -> s <> "" -> initProtocol p = Normal (HttpProtocol p))
  /\ (truthy p = true -> typeof p <> "string" -> exposesRawCall p = false ->
        initProtocol p = Throw (Err "protocol is not a compatible Web3 Provider."))
  /\ (exposesRawCall p = true -> initProtocol p = Normal p)
  /\ (forall w, constructor p = Normal w -> exposesRawCall (protocol w) = true).
Proof.
  assert (Hfun : forall q, String.eqb (typeof q) "function" = true -> truthy q = true).
  { intros []; simpl; try discriminate; reflexivity. }
  assert (Hexp : exposesRawCall p = true -> initProtocol p = Normal p).
  { unfold exposesRawCall, initProtocol. intros He.
    destruct p; simpl in *; try discriminate.
    - rewrite He. rewrite (Hfun _ He). reflexivity.
    - rewrite He. rewrite (Hfun _ He). reflexivity.
    - reflexivity. }
  repeat split.
  - unfold initProtocol. intros ->. reflexivity.
  - intros s -> Hs. unfold initProtocol. simpl.
    apply String.eqb_neq in Hs. rewrite Hs. reflexivity.
  - unfold initProtocol, exposesRawCall. intros -> Hty He.
    apply String.eqb_neq in Hty. rewrite Hty, He. simpl.
    rewrite orb_true_r. reflexivity.
  - exact Hexp.
  - unfold constructor. intros w.
    destruct (initProtocol p) as [pr|e] eqn:Hi; [|discriminate].
    intros [= <-]. simpl.
    unfold initProtocol in Hi.
    destruct (truthy p); simpl in Hi; [|discriminate].
    destruct (String.eqb (typeof p) "string").
    + injection Hi as <-. reflexivity.
    + destruct (truthy (getProp p "rawCall")); simpl in Hi; [|discriminate].
      destruct (String.eqb (typeof (getProp p "rawCall")) "function") eqn:He;
        simpl in Hi; [|discriminate].
      injection Hi as <-. exact He.
Qed.

(** C10, as stated, fails on the empty string: it is a string, and
    [initProtocol] throws on it instead of building an [HttpProtocol]. *)
Lemma initProtocol_empty_string :
  typeof (Str "") = "string"
  /\ initProtocol (Str "") = Throw (Err "protocol cannot be undefined.")
  /\ initProtocol (Str "") <> Normal (HttpProtocol (Str "")).
Proof. repeat split. discriminate. Qed.

End FacadeFacts.

(** ** Bytes, words, hex strings and UTF-8 *)

Module BytesFacts.
Import Bytes.

Lemma toZ_range b : 0 <= toZ b < 256.
Proof.
  unfold toZ. pose proof (Byte.to_N_bounded b) as H. lia.
Qed.

Lemma ofZ_toZ b : ofZ (toZ b) = b.
Proof.
  unfold ofZ. rewrite Z.mod_small by apply toZ_range.
  unfold toZ. rewrite N2Z.id, Byte.of_to_N. reflexivity.
Qed.

Lemma toZ_ofZ z : toZ (ofZ z) = z mod 256.
Proof.
  unfold ofZ, toZ.
  pose proof (Z.mod_pos_bound z 256 ltac:(lia)) as Hr.
  destruct (Byte.of_N (Z.to_N (z mod 256))) as [b|] eqn:Hb.
  - simpl. apply Byte.to_of_N in Hb. rewrite Hb. lia.
  - apply Byte.of_N_None_iff in Hb. lia.
Qed.

Lemma length_bigEndian n z : length (bigEndian n z) = n.
Proof.
  revert z. induction n as [|n IH]; intros z; simpl; [reflexivity|].
  rewrite length_app, IH. simpl. lia.
Qed.

Lemma value_snoc bs b : value (bs ++ [b]) = value bs * 256 + toZ b.
Proof. unfold value. rewrite fold_left_app. reflexivity. Qed.

Lemma value_nonneg bs : 0 <= value bs.
Proof.
  induction bs as [|b bs IH] using rev_ind; [unfold value; simpl; lia|].
  rewrite value_snoc. pose proof (toZ_range b). lia.
Qed.

Lemma value_bigEndian n z : value (bigEndian n z) = z mod 256 ^ Z.of_nat n.
Proof.
  revert z. induction n as [|n IH]; intros z.
  - simpl. rewrite Z.mod_1_r. reflexivity.
  - simpl bigEndian. rewrite value_snoc, IH, toZ_ofZ.
    rewrite Nat2Z.inj_succ, Z.pow_succ_r by lia.
    rewrite Z.rem_mul_r by lia. lia.
Qed.

Lemma length_padLeft n bs : (length bs <= n)%nat -> length (padLeft n bs) = n.
Proof. intros H. unfold padLeft. rewrite length_app, length_replicate. lia. Qed.

Lemma length_padRight bs :
  length (padRight 32 bs) = Word.roundUp (length bs).
Proof.
  unfold padRight, Word.roundUp. rewrite length_app, length_replicate.
  pose proof (Nat.div_mod_eq (length bs) 32).
  pose proof (Nat.mod_upper_bound (length bs) 32 ltac:(lia)).
  pose proof (Nat.div_mod_eq (length bs + 31) 32).
  pose proof (Nat.mod_upper_bound (length bs + 31) 32 ltac:(lia)).
  pose proof (Nat.div_mod_eq (32 - length bs mod 32) 32).
  pose proof (Nat.mod_upper_bound (32 - length bs mod 32) 32 ltac:(lia)).
  nia.
Qed.

Lemma take_padRight bs rest :
  take (length bs) (padRight 32 bs ++ rest) = bs.
Proof.
  unfold padRight. rewrite <- app_assoc. apply take_app_length.
Qed.

End BytesFacts.

Module WordFacts.
Import Bytes BytesFacts Word.

Lemma length_ofZ z : length (ofZ z) = 32%nat.
Proof. apply length_bigEndian. Qed.

Lemma toZ_ofZ_app z rest : toZ (ofZ z ++ rest) = z mod modulus.
Proof.
  unfold toZ. rewrite take_app_length' by (symmetry; apply length_ofZ).
  unfold ofZ. rewrite value_bigEndian.
  change (256 ^ Z.of_nat size) with modulus.
  apply Z.mod_mod. unfold modulus. lia.
Qed.

Lemma toZ_ofZ_small z rest : 0 <= z < modulus -> toZ (ofZ z ++ rest) = z.
Proof. intros H. rewrite toZ_ofZ_app. apply Z.mod_small, H. Qed.

Lemma toSigned_ofZ_app z rest :
  - (modulus / 2) <= z < modulus / 2 -> toSigned (ofZ z ++ rest) = z.
Proof.
  intros H. unfold toSigned. rewrite toZ_ofZ_app.
  assert (Hm : modulus = 2 * (modulus / 2)) by reflexivity.
  destruct (Z_lt_le_dec z 0) as [Hneg|Hpos].
  - assert (E : z mod modulus = z + modulus).
    { symmetry. apply Z.mod_unique with (q := -1); lia. }
    rewrite E. destruct (Z.ltb_spec (z + modulus) (modulus / 2)); lia.
  - rewrite Z.mod_small by lia.
    destruct (Z.ltb_spec z (modulus / 2)); lia.
Qed.

End WordFacts.

Module HexFacts.
Import Hex.

(** The two digits of a byte read back as the byte. *)
Lemma digits_of_byte b :
  (h ← digitValue (digit (Byte.to_N b / 16)%N);
   l ← digitValue (digit (Byte.to_N b mod 16)%N);
   Byte.of_N (16 * h + l)%N) = Some b.
Proof. destruct b; vm_compute; reflexivity. Qed.

Lemma decodeBare_encode bs : decodeBare (encode bs) = Some bs.
Proof.
  induction bs as [|b bs IH]; [reflexivity|].
  pose proof (digits_of_byte b) as Hb.
  cbn [encode decodeBare].
  destruct (digitValue (digit (Byte.to_N b / 16)%N)) as [h|]; [|discriminate].
  destruct (digitValue (digit (Byte.to_N b mod 16)%N)) as [l|]; [|discriminate].
  cbn in Hb |- *. rewrite Hb. cbn. rewrite IH. reflexivity.
Qed.

(** No digit is the [x] of the marker. *)
Lemma hasMarker_encode bs : hasMarker (encode bs) = false.
Proof. destruct bs as [|b bs]; [reflexivity|]. destruct b; reflexivity. Qed.

Lemma substring_all s : String.substring 0 (String.length s) s = s.
Proof. induction s as [|c s IH]; [reflexivity|]. simpl. rewrite IH. reflexivity. Qed.

Lemma prefix_empty s : String.prefix "" s = true.
Proof. destruct s; reflexivity. Qed.

Lemma stripMarker_render bs : stripMarker (render bs) = encode bs.
Proof.
  change (render bs) with (String "0" (String "x" (encode bs))).
  unfold stripMarker, hasMarker, marker. cbn.
  rewrite prefix_empty, Nat.sub_0_r. apply substring_all.
Qed.

(** Decoding is prefix-agnostic: both forms of a byte string read back. *)
Lemma decode_render bs : decode (render bs) = Some bs.
Proof. unfold decode. rewrite stripMarker_render. apply decodeBare_encode. Qed.

Lemma hex_decode_encode bs : decode (encode bs) = Some bs.
Proof.
  unfold decode, stripMarker. rewrite hasMarker_encode. apply decodeBare_encode.
Qed.

End HexFacts.

Module Utf8Facts.
Import Bytes BytesFacts Utf8.

Lemma decode_cons b0 r0 :
  decode (b0 :: r0) =
    let z0 := toZ b0 in
    if z0 <? 128 then cs ← decode r0; Some (z0 :: cs)
    else if z0 <? 192 then None
    else if z0 <? 224 then
      match r0 with
      | b1 :: r1 =>
          x1 ← continuation b1;
          c ← accept 128 ((z0 - 192) * 64 + x1);
          cs ← decode r1; Some (c :: cs)
      | _ => None
      end
    else if z0 <? 240 then
      match r0 with
      | b1 :: b2 :: r2 =>
          x1 ← continuation b1;
          x2 ← continuation b2;
          c ← accept 2048 ((z0 - 224) * 4096 + x1 * 64 + x2);
          cs ← decode r2; Some (c :: cs)
      | _ => None
      end
    else if z0 <? 248 then
      match r0 with
      | b1 :: b2 :: b3 :: r3 =>
          x1 ← continuation b1;
          x2 ← continuation b2;
          x3 ← continuation b3;
          c ← accept 65536 ((z0 - 240) * 262144 + x1 * 4096 + x2 * 64 + x3);
          cs ← decode r3; Some (c :: cs)
      | _ => None
      end
    else None.
Proof. reflexivity. Qed.

Lemma toZ_ofZ_byte z : 0 <= z < 256 -> toZ (ofZ z) = z.
Proof. intros H. rewrite toZ_ofZ. apply Z.mod_small, H. Qed.

Lemma continuation_ofZ x : 0 <= x < 64 -> continuation (ofZ (128 + x)) = Some x.
Proof.
  intros H. unfold continuation. rewrite toZ_ofZ_byte by lia.
  destruct (Z.leb_spec 128 (128 + x)), (Z.ltb_spec (128 + x) 192);
    try lia; simpl. f_equal. lia.
Qed.

Lemma accept_scalar lo c : lo <= c -> scalar c = true -> accept lo c = Some c.
Proof.
  intros Hlo Hs. unfold accept. rewrite Hs.
  destruct (Z.leb_spec lo c); [reflexivity|lia].
Qed.

Lemma scalar_range c : scalar c = true -> 0 <= c < 1114112.
Proof. unfold scalar. lia. Qed.

(** Decides the range tests on a lead byte in the goal. *)
Local Ltac ranges :=
  repeat match goal with
         | |- context [?a <? ?b] => destruct (Z.ltb_spec a b); try lia
         end.

Lemma decode_encodeOne c rest :
  scalar c = true ->
  decode (encodeOne c ++ rest) = cs ← decode rest; Some (c :: cs).
Proof.
  intros Hs. pose proof (scalar_range c Hs) as Hr. unfold encodeOne.
  destruct (Z.ltb_spec c 128) as [H1|H1];
    [|destruct (Z.ltb_spec c 2048) as [H2|H2];
      [|destruct (Z.ltb_spec c 65536) as [H3|H3]]];
    cbn [app]; rewrite decode_cons; cbv zeta.
  - rewrite toZ_ofZ_byte by lia. ranges. reflexivity.
  - assert (0 <= c / 64 < 32) by (Z.to_euclidean_division_equations; lia).
    assert (0 <= c mod 64 < 64) by (Z.to_euclidean_division_equations; lia).
    rewrite toZ_ofZ_byte by lia. ranges.
    rewrite continuation_ofZ by lia. cbn [mbind option_bind].
    replace ((192 + c / 64 - 192) * 64 + c mod 64) with c
      by (Z.to_euclidean_division_equations; lia).
    rewrite accept_scalar by (assumption || lia). reflexivity.
  - assert (0 <= c / 4096 < 16) by (Z.to_euclidean_division_equations; lia).
    assert (0 <= (c / 64) mod 64 < 64) by (Z.to_euclidean_division_equations; lia).
    assert (0 <= c mod 64 < 64) by (Z.to_euclidean_division_equations; lia).
    rewrite toZ_ofZ_byte by lia. ranges.
    rewrite !continuation_ofZ by lia. cbn [mbind option_bind].
    replace ((224 + c / 4096 - 224) * 4096 + (c / 64) mod 64 * 64 + c mod 64) with c
      by (Z.to_euclidean_division_equations; lia).
    rewrite accept_scalar by (assumption || lia). reflexivity.
  - assert (0 <= c / 262144 < 8) by (Z.to_euclidean_division_equations; lia).
    assert (0 <= (c / 4096) mod 64 < 64) by (Z.to_euclidean_division_equations; lia).
    assert (0 <= (c / 64) mod 64 < 64) by (Z.to_euclidean_division_equations; lia).
    assert (0 <= c mod 64 < 64) by (Z.to_euclidean_division_equations; lia).
    rewrite toZ_ofZ_byte by lia. ranges.
    rewrite !continuation_ofZ by lia. cbn [mbind option_bind].
    replace ((240 + c / 262144 - 240) * 262144 + (c / 4096) mod 64 * 4096
             + (c / 64) mod 64 * 64 + c mod 64) with c
      by (Z.to_euclidean_division_equations; lia).
    rewrite accept_scalar by (assumption || lia). reflexivity.
Qed.

(** Text of scalar values reads back from its UTF-8 bytes. *)
Lemma utf8_decode_encode cs :
  forallb scalar cs = true -> decode (encode cs) = Some cs.
Proof.
  induction cs as [|c cs IH]; [reflexivity|].
  simpl. intros [Hc Hcs]%andb_true_iff.
  change (encode (c :: cs)) with (encodeOne c ++ encode cs).
  rewrite decode_encodeOne by assumption. rewrite (IH Hcs). reflexivity.
Qed.

End Utf8Facts.

(** ** The type codec *)

Module LayoutFacts.
Import Bytes BytesFacts Word WordFacts Abi.

Lemma length_resolve H s : length (resolve H s) = slotLength s.
Proof. destruct s; [reflexivity|]. unfold resolve, slotLength. apply length_ofZ. Qed.

Lemma length_heads H hs :
  length (concat (map (resolve H) hs)) = sum_list (map slotLength hs).
Proof.
  induction hs as [|s hs IH]; [reflexivity|].
  simpl. rewrite length_app, length_resolve, IH. reflexivity.
Qed.

(** The head of a sequence does not depend on where its tail starts. *)
Lemma place_slotLength items T1 T2 :
  map slotLength (place items T1).1 = map slotLength (place items T2).1
  /\ (place items T1).2 = (place items T2).2.
Proof.
  revert T1 T2. induction items as [|[[] e] items IH]; intros T1 T2; simpl.
  - split; reflexivity.
  - destruct (IH (T1 + length e)%nat (T2 + length e)%nat) as [E1 E2].
    destruct (place items (T1 + length e)), (place items (T2 + length e));
      simpl in *. rewrite E1, E2. split; reflexivity.
  - destruct (IH T1 T2) as [E1 E2].
    destruct (place items T1), (place items T2); simpl in *.
    rewrite E1, E2. split; reflexivity.
Qed.

Lemma length_headTail items :
  length (headTail items)
  = (sum_list (map slotLength (place items 0).1) + length (place items 0).2)%nat.
Proof.
  unfold headTail. destruct (place items 0) as [hs tl]. simpl.
  rewrite length_app, length_heads. reflexivity.
Qed.

(** Every member is within the sequence. *)
Lemma place_member items T d e :
  In (d, e) items ->
  (length e <= sum_list (map slotLength (place items T).1)
               + length (place items T).2)%nat.
Proof.
  revert T. induction items as [|[[] e'] items IH]; intros T Hin; simpl.
  - destruct Hin.
  - specialize (IH (T + length e')%nat).
    destruct (place items (T + length e')) as [hs tl]. simpl in *.
    rewrite length_app. destruct Hin as [[= <- <-]|Hin]; [lia|].
    specialize (IH Hin). lia.
  - specialize (IH T). destruct (place items T) as [hs tl]. simpl in *.
    destruct Hin as [[= <- <-]|Hin]; [lia|]. specialize (IH Hin). lia.
Qed.

Lemma headTail_member items d e :
  In (d, e) items -> (length e <= length (headTail items))%nat.
Proof. intros H. rewrite length_headTail. apply place_member with d, H. Qed.

Lemma readWord_app pre z rest :
  0 <= z < modulus -> readWord (pre ++ Word.ofZ z ++ rest) (length pre) = Ok z.
Proof.
  intros Hz. unfold readWord.
  rewrite !length_app, length_ofZ, drop_app_length, toZ_ofZ_small by assumption.
  destruct (Nat.leb_spec (length pre + size) (length pre + (32 + length rest)));
    [reflexivity|unfold size in *; lia].
Qed.

Lemma drop_app4 (a b c d k : list byte) n :
  n = (length a + length b + length c + length d)%nat ->
  drop n (a ++ b ++ c ++ d ++ k) = k.
Proof.
  intros ->. rewrite !app_assoc. apply drop_app_length'.
  rewrite !length_app. reflexivity.
Qed.

(** Reading a laid out sequence, from any point of its head on: [pre] is
    the head already read, [mid] the tail of the members read. *)
Lemma decodeSlots_place items rs vs :
  Forall3 reads items rs vs ->
  forall T pre mid rest,
    let hs := (place items T).1 in
    let tl := (place items T).2 in
    let H := (length pre + sum_list (map slotLength hs))%nat in
    length mid = T ->
    Z.of_nat (H + T + length tl) < modulus ->
    decodeSlots (pre ++ concat (map (resolve H) hs) ++ mid ++ tl ++ rest)
      (length pre) rs = Ok vs.
Proof.
  induction 1 as [|[d e] r v items rs vs (Hd & Hs & Hdec) _ IH];
    intros T pre mid rest; [reflexivity|].
  simpl in Hd, Hs, Hdec. destruct d; simpl place.
  - (* a dynamic member *)
    specialize (IH (T + length e)%nat).
    destruct (place items (T + length e)) as [hs tl] eqn:Hpl.
    cbn [fst snd map concat sum_list sum_list_with slotLength resolve] in *.
    intros Hmid Hfit. rewrite length_app in Hfit.
    change (id size) with 32%nat in *.
    set (hl := sum_list (map slotLength hs)) in *.
    set (H := (length pre + (32 + hl))%nat) in *.
    specialize (IH (pre ++ Word.ofZ (Z.of_nat (H + T))) (mid ++ e) rest).
    rewrite !length_app, length_ofZ in IH.
    replace (length pre + 32 + hl)%nat with H in IH by (unfold H, size; lia).
    rewrite <- !app_assoc in IH |- *.
    cbn [decodeSlots]. rewrite Hd.
    rewrite readWord_app by lia. cbn [mbind result_bind].
    rewrite Nat2Z.id, drop_app4.
    2: { rewrite length_ofZ, length_heads. fold hl. unfold H, size. lia. }
    rewrite Hdec. cbn [mbind result_bind].
    change (length pre + size)%nat with (length pre + 32)%nat.
    rewrite IH; [reflexivity|lia|unfold H, size in *; lia].
  - (* a static member *)
    specialize (IH T).
    destruct (place items T) as [hs tl] eqn:Hpl.
    cbn [fst snd map concat sum_list sum_list_with slotLength resolve] in *.
    intros Hmid Hfit.
    change (id (length e)) with (length e) in *.
    set (hl := sum_list (map slotLength hs)) in *.
    set (H := (length pre + (length e + hl))%nat) in *.
    specialize (IH (pre ++ e) mid rest).
    rewrite !length_app in IH.
    replace (length pre + length e + hl)%nat with H in IH by (unfold H; lia).
    rewrite <- !app_assoc in IH |- *.
    cbn [decodeSlots]. rewrite Hd.
    rewrite drop_app_length, Hdec. cbn [mbind result_bind].
    rewrite Hs by reflexivity.
    rewrite IH; [reflexivity|lia|lia].
Qed.

(** A laid out sequence reads back. *)
Lemma decodeSlots_headTail items rs vs rest :
  Forall3 reads items rs vs ->
  Z.of_nat (length (headTail items)) < modulus ->
  decodeSlots (headTail items ++ rest) 0 rs = Ok vs.
Proof.
  intros Hall Hfit. rewrite length_headTail in Hfit.
  pose proof (decodeSlots_place items rs vs Hall 0%nat [] [] rest) as Hp.
  unfold headTail. destruct (place items 0) as [hs tl]. simpl in *.
  rewrite <- app_assoc. apply Hp; [reflexivity|lia].
Qed.

End LayoutFacts.

Module CodecFacts.
Import Bytes BytesFacts Word WordFacts HexFacts LayoutFacts Abi.

Lemma Ok_inj {A} (a b : A) : Ok a = Ok b -> a = b.
Proof. congruence. Qed.

Lemma collect_Forall2 {A B} (f : A -> result B) xs ys :
  collect (map f xs) = Ok ys -> Forall2 (fun x y => f x = Ok y) xs ys.
Proof.
  revert ys. induction xs as [|x xs IH]; intros ys; simpl.
  - intros [= <-]. constructor.
  - destruct (f x) as [y|] eqn:Hy; [|discriminate]. cbn [mbind result_bind].
    destruct (collect (map f xs)) as [ys'|]; [|discriminate].
    intros [= <-]. constructor; [assumption|]. apply IH. reflexivity.
Qed.

Lemma collect_total {A B} (f : A -> result B) xs :
  Forall (fun x => exists y, f x = Ok y) xs -> exists ys, collect (map f xs) = Ok ys.
Proof.
  induction 1 as [|x xs [y Hy] _ [ys IH]]; simpl; [eauto|].
  rewrite Hy, IH. simpl. eauto.
Qed.

Lemma canonicalHex_spec len s :
  canonicalHex len s = true ->
  exists bs, Hex.decode s = Some bs /\ s = Hex.render bs
             /\ forall n, len = Some n -> length bs = n.
Proof.
  unfold canonicalHex. destruct (Hex.decode s) as [bs|]; [|discriminate].
  intros [Hs Hl]%andb_true_iff. apply String.eqb_eq in Hs.
  exists bs. repeat split; [assumption|].
  intros n ->. apply Nat.eqb_eq, Hl.
Qed.

Lemma hexOfLength_canonical t n s :
  canonicalHex (Some n) s = true ->
  exists bs, hexOfLength t n s = Ok bs /\ s = Hex.render bs /\ length bs = n.
Proof.
  intros (bs & Hd & Hs & Hl)%canonicalHex_spec. specialize (Hl n eq_refl).
  exists bs. unfold hexOfLength. rewrite Hd, Hl, Nat.eqb_refl. auto.
Qed.

(** Members of a static type all go to the head. *)
Lemma headTail_static es : headTail (map (pair false) es) = concat es.
Proof.
  unfold headTail.
  assert (Hp : forall T, place (map (pair false) es) T = (map Inline es, [])).
  { induction es as [|e es IH]; intros T; simpl; [reflexivity|].
    rewrite IH. reflexivity. }
  rewrite Hp, app_nil_r. clear Hp.
  generalize (sum_list (map slotLength (map Inline es))). intros H.
  induction es as [|e es IH]; simpl; [reflexivity|]. rewrite IH. reflexivity.
Qed.

Lemma length_concat_uniform (es : list (list byte)) n :
  Forall (fun e => length e = n) es -> length (concat es) = (length es * n)%nat.
Proof.
  induction 1 as [|e es He _ IH]; simpl; [reflexivity|].
  rewrite length_app, He, IH. reflexivity.
Qed.

(** The encoding of a static type has the size of the type. *)
Lemma length_encode_static t :
  forall v bs, isDynamic t = false -> encode t v = Ok bs -> length bs = staticSize t.
Proof.
  induction t as [| | | | | | |e IH n|e IH]; intros v bs Hdyn Henc;
    simpl in Hdyn; try discriminate; destruct v; simpl in Henc; try discriminate.
  - injection Henc as <-. apply length_ofZ.
  - injection Henc as <-. apply length_ofZ.
  - injection Henc as <-. apply length_ofZ.
  - unfold hexOfLength in Henc.
    destruct (Hex.decode s) as [b|]; [|discriminate].
    destruct (Nat.eqb_spec (length b) 20) as [Hl|]; [|discriminate].
    injection Henc as <-. apply length_padLeft. rewrite Hl.
    change (20 <= 32)%nat. lia.
  - unfold hexOfLength in Henc.
    destruct (Hex.decode s) as [b|]; [|discriminate].
    destruct (Nat.eqb_spec (length b) n) as [Hl|]; [|discriminate].
    injection Henc as <-. simpl. rewrite <- Hl. apply length_padRight.
  - destruct (Nat.eqb_spec (length vs) n) as [Hl|]; [|discriminate].
    destruct (collect (map (encode e) vs)) as [es|] eqn:Hes; [|discriminate].
    injection Henc as <-. rewrite Hdyn, headTail_static.
    apply collect_Forall2 in Hes.
    rewrite (length_concat_uniform es (staticSize e)).
    + simpl. rewrite <- (Forall2_length _ _ _ Hes), Hl. reflexivity.
    + clear Hl. induction Hes as [|v e' vs es Hv _ IHes]; constructor; eauto.
Qed.


Lemma one_lt_modulus : 1 < modulus.
Proof. reflexivity. Qed.

Lemma readWord_ofZ z rest :
  0 <= z < modulus -> readWord (Word.ofZ z ++ rest) 0 = Ok z.
Proof. apply (readWord_app [] z rest). Qed.

Lemma readWord_ok data :
  (32 <= length data)%nat -> exists w, readWord data 0 = Ok w.
Proof.
  intros H. unfold readWord.
  destruct (Nat.leb_spec (0 + size) (length data));
    [eauto|unfold size in *; lia].
Qed.

Lemma need_ok n data : (n <= length data)%nat -> need n data = Ok tt.
Proof. intros H. unfold need. destruct (Nat.leb_spec n (length data)); [reflexivity|lia]. Qed.

Lemma length_encodeBytes bs :
  length (encodeBytes bs) = (32 + roundUp (length bs))%nat.
Proof. unfold encodeBytes. rewrite length_app, length_ofZ, length_padRight. reflexivity. Qed.

Lemma le_roundUp n : (n <= roundUp n)%nat.
Proof.
  unfold roundUp. pose proof (Nat.div_mod_eq (n + 31) 32).
  pose proof (Nat.mod_upper_bound (n + 31) 32 ltac:(lia)). lia.
Qed.

(** A length word and padded content read back as the content. *)
Lemma decodeBytes_encodeBytes bs rest :
  Z.of_nat (length (encodeBytes bs)) < modulus ->
  decodeBytes (encodeBytes bs ++ rest) = Ok bs.
Proof.
  intros Hfit. rewrite length_encodeBytes in Hfit. pose proof (le_roundUp (length bs)).
  unfold decodeBytes.
  assert (Hlen : (size + length bs <= length (encodeBytes bs ++ rest))%nat).
  { rewrite length_app, length_encodeBytes. unfold size. lia. }
  unfold encodeBytes in *. rewrite <- app_assoc in *.
  rewrite readWord_ofZ by lia. cbn [mbind result_bind]. rewrite Nat2Z.id.
  rewrite need_ok by assumption. cbn [mbind result_bind].
  rewrite drop_app_length' by (symmetry; apply length_ofZ).
  change (padRight size bs) with (padRight 32 bs).
  rewrite take_padRight. reflexivity.
Qed.

(** The head of [n] members of one type takes [n] head slots. *)
Lemma headLength_uniform dyn es hsz :
  (dyn = true -> hsz = 32%nat) ->
  (dyn = false -> Forall (fun e => length e = hsz) es) ->
  forall T,
    sum_list (map slotLength (place (map (pair dyn) es) T).1) = (length es * hsz)%nat.
Proof.
  intros Hd Hs. destruct dyn.
  - specialize (Hd eq_refl). subst hsz. clear Hs.
    induction es as [|e es IH]; intros T; simpl; [reflexivity|].
    specialize (IH (T + length e)%nat).
    destruct (place _ (T + length e)). simpl in *. rewrite IH. reflexivity.
  - specialize (Hs eq_refl). clear Hd.
    induction Hs as [|e es He _ IH]; intros T; simpl; [reflexivity|].
    specialize (IH T). destruct (place _ T). simpl in *. rewrite IH, He. reflexivity.
Qed.

Section Members.
(** The members of an array, given that the member type round-trips. *)
Variable e : ty.
Hypothesis member :
  forall v bs rest,
    wellFormed e v = true -> encode e v = Ok bs ->
    Z.of_nat (length bs) < modulus -> decode e (bs ++ rest) = Ok v.

Local Abbreviation rd := (Reader (isDynamic e) (headSize e) (decode e)).

Lemma reads_members vs es :
  Forall2 (fun v b => encode e v = Ok b) vs es ->
  forallb (wellFormed e) vs = true ->
  Forall (fun b => Z.of_nat (length b) < modulus) es ->
  Forall3 reads (map (pair (isDynamic e)) es) (replicate (length vs) rd) vs.
Proof.
  induction 1 as [|v b vs es Hv _ IH]; simpl; [constructor|].
  intros [Hwf Hwfs]%andb_true_iff Hfit. inversion Hfit as [|? ? Hb Hbs]; subst.
  constructor; [|apply IH; assumption].
  unfold reads. simpl. repeat split.
  - intros Hdyn. unfold headSize. rewrite Hdyn.
    symmetry. apply length_encode_static with v; assumption.
  - intros rest. apply member; assumption.
Qed.

Lemma headLength_members vs es T :
  Forall2 (fun v b => encode e v = Ok b) vs es ->
  sum_list (map slotLength (place (map (pair (isDynamic e)) es) T).1)
  = (length vs * headSize e)%nat.
Proof.
  intros Hes. rewrite (Forall2_length _ _ _ Hes).
  apply headLength_uniform.
  - intros Hdyn. unfold headSize. rewrite Hdyn. reflexivity.
  - intros Hdyn. unfold headSize. rewrite Hdyn. clear T.
    induction Hes as [|v b vs es Hv _ IH]; constructor; [|assumption].
    apply length_encode_static with v; assumption.
Qed.

(** The members read back from the block their layout starts. *)
Lemma decodeSlots_members vs es rest :
  collect (map (encode e) vs) = Ok es ->
  forallb (wellFormed e) vs = true ->
  Z.of_nat (length (headTail (map (pair (isDynamic e)) es))) < modulus ->
  need (length vs * headSize e) (headTail (map (pair (isDynamic e)) es) ++ rest) = Ok tt
  /\ decodeSlots (headTail (map (pair (isDynamic e)) es) ++ rest) 0
       (replicate (length vs) rd) = Ok vs.
Proof.
  intros Hes%collect_Forall2 Hwf Hfit. split.
  - apply need_ok. rewrite length_app, length_headTail.
    rewrite (headLength_members vs es 0%nat Hes). lia.
  - apply decodeSlots_headTail; [|assumption].
    apply reads_members; [assumption..|].
    apply Forall_forall. intros b Hb.
    pose proof (headTail_member (map (pair (isDynamic e)) es) (isDynamic e) b) as Hle.
    rewrite <- list_elem_of_In in Hle.
    specialize (Hle ltac:(apply list_elem_of_fmap; eauto)). lia.
Qed.

End Members.

Lemma bitsOk_le n : bitsOk n = true -> (8 <= n <= 256)%nat.
Proof. unfold bitsOk. intros [[H1 H2]%andb_true_iff _]%andb_true_iff.
  apply Nat.leb_le in H1, H2. lia. Qed.

(** Decoding undoes encoding, whatever follows the encoding in the block. *)
Lemma abi_decode_encode t :
  supported t = true ->
  forall v bs rest,
    wellFormed t v = true -> encode t v = Ok bs ->
    Z.of_nat (length bs) < modulus -> decode t (bs ++ rest) = Ok v.
Proof.
  pose proof one_lt_modulus as Hm.
  induction t as [|n|n| |n| | |e IH n|e IH]; intros Hsup v bs rest Hwf Henc Hfit;
    destruct v; cbn [wellFormed] in Hwf; try discriminate;
    cbn [encode] in Henc; cbn [decode].
  - (* bool *)
    injection Henc as <-.
    destruct b; rewrite readWord_ofZ by lia; reflexivity.
  - (* uintN *)
    injection Henc as <-. apply bitsOk_le in Hsup.
    apply andb_true_iff in Hwf as [H0%Z.leb_le Hn%Z.ltb_lt].
    assert (2 ^ Z.of_nat n <= modulus)
      by (apply Z.pow_le_mono_r; lia).
    rewrite readWord_ofZ by lia. reflexivity.
  - (* intN *)
    injection Henc as <-. apply bitsOk_le in Hsup.
    apply andb_true_iff in Hwf as [H0%Z.leb_le Hn%Z.ltb_lt].
    assert (2 ^ (Z.of_nat n - 1) <= modulus / 2)
      by (change (modulus / 2) with (2 ^ 255); apply Z.pow_le_mono_r; lia).
    destruct (readWord_ok (Word.ofZ n0 ++ rest)) as [w ->].
    { rewrite length_app, length_ofZ. lia. }
    cbn [mbind result_bind]. rewrite toSigned_ofZ_app by lia. reflexivity.
  - (* address *)
    destruct (hexOfLength_canonical TAddress _ _ Hwf) as (b & Hb & -> & Hl).
    rewrite Hb in Henc. cbn [mbind result_bind] in Henc. injection Henc as <-.
    destruct (readWord_ok (padLeft size b ++ rest)) as [w ->].
    { rewrite length_app, length_padLeft; unfold size; lia. }
    cbn [mbind result_bind]. unfold padLeft. rewrite Hl, <- app_assoc.
    change (size - 20)%nat with 12%nat.
    rewrite drop_app_length' by (rewrite length_replicate; reflexivity).
    rewrite <- Hl, take_app_length. reflexivity.
  - (* bytesN *)
    destruct (hexOfLength_canonical (TFixedBytes n) _ _ Hwf) as (b & Hb & -> & Hl).
    rewrite Hb in Henc. cbn [mbind result_bind] in Henc. injection Henc as <-.
    rewrite need_ok by (rewrite length_app, length_padRight, Hl; lia).
    cbn [mbind result_bind]. rewrite <- Hl.
    change (padRight size b) with (padRight 32 b). rewrite take_padRight. reflexivity.
  - (* bytes *)
    destruct (canonicalHex_spec _ _ Hwf) as (b & Hb & -> & _).
    rewrite Hb in Henc. injection Henc as <-.
    rewrite decodeBytes_encodeBytes by assumption. reflexivity.
  - (* string *)
    rewrite Hwf in Henc. injection Henc as <-.
    rewrite decodeBytes_encodeBytes by assumption. cbn [mbind result_bind].
    rewrite Utf8Facts.utf8_decode_encode by assumption. reflexivity.
  - (* type[N] *)
    apply andb_true_iff in Hwf as [Hl%Nat.eqb_eq Hwf].
    rewrite (proj2 (Nat.eqb_eq _ _) Hl) in Henc.
    destruct (collect (map (encode e) vs)) as [es|] eqn:Hes; [|discriminate].
    cbn [mbind result_bind] in Henc. injection Henc as <-.
    destruct (decodeSlots_members e (IH Hsup) vs es rest Hes Hwf Hfit) as [Hneed Hdec].
    rewrite <- Hl, Hneed. cbn [mbind result_bind]. rewrite Hdec. reflexivity.
  - (* type[] *)
    apply andb_true_iff in Hwf as [Hl%Z.ltb_lt Hwf].
    destruct (collect (map (encode e) vs)) as [es|] eqn:Hes; [|discriminate].
    cbn [mbind result_bind] in Henc. apply Ok_inj in Henc. subst bs.
    rewrite length_app, length_ofZ in Hfit.
    rewrite <- app_assoc. rewrite readWord_ofZ by lia.
    cbn [mbind result_bind]. cbv zeta. rewrite Nat2Z.id.
    rewrite drop_app_length' by (symmetry; apply length_ofZ).
    destruct (decodeSlots_members e (IH Hsup) vs es rest Hes Hwf ltac:(lia))
      as [Hneed Hdec].
    rewrite Hneed. cbn [mbind result_bind]. rewrite Hdec. reflexivity.
Qed.

(** Every value of a type has an encoding. *)
Lemma encode_total t :
  forall v, wellFormed t v = true -> exists bs, encode t v = Ok bs.
Proof.
  induction t as [|n|n| |n| | |e IH n|e IH]; intros v Hwf;
    destruct v; cbn [wellFormed] in Hwf; try discriminate; cbn [encode]; eauto.
  - destruct (hexOfLength_canonical TAddress _ _ Hwf) as (b & -> & _). simpl. eauto.
  - destruct (hexOfLength_canonical (TFixedBytes n) _ _ Hwf) as (b & -> & _).
    simpl. eauto.
  - destruct (canonicalHex_spec _ _ Hwf) as (b & -> & _). eauto.
  - rewrite Hwf. eauto.
  - apply andb_true_iff in Hwf as [Hl Hwf]. rewrite Hl.
    destruct (collect_total (encode e) vs) as [es ->]; [|simpl; eauto].
    apply Forall_forall. intros v Hv. apply IH.
    rewrite forallb_forall in Hwf. apply Hwf, list_elem_of_In, Hv.
  - apply andb_true_iff in Hwf as [_ Hwf].
    destruct (collect_total (encode e) vs) as [es ->]; [|simpl; eauto].
    apply Forall_forall. intros v Hv. apply IH.
    rewrite forallb_forall in Hwf. apply Hwf, list_elem_of_In, Hv.
Qed.

Lemma sized_supported mk ok d t :
  sized mk ok d = Some t -> exists n, t = mk n /\ ok n = true.
Proof.
  unfold sized. destruct (parseDecimal d) as [n|]; [|discriminate]. simpl.
  destruct (ok n) eqn:Hok; [|discriminate]. intros [= <-]. eauto.
Qed.

Lemma parseElementary_supported s t :
  parseElementary s = Some t -> supported t = true.
Proof.
  unfold parseElementary.
  repeat match goal with
         | |- context [if ?c then _ else _] => destruct c
         | |- context [match stripPrefix ?p ?s with _ => _ end] =>
             destruct (stripPrefix p s)
         end;
    try discriminate; try (intros [= <-]; reflexivity);
    intros (n & -> & Hok)%sized_supported; exact Hok.
Qed.

Lemma parseSuffixes_supported s :
  forall open t t',
    supported t = true -> parseSuffixes s open t = Some t' -> supported t' = true.
Proof.
  induction s as [|c s IH]; intros open t t' Ht; destruct open as [acc|]; simpl;
    try discriminate.
  - intros [= <-]. exact Ht.
  - destruct (Ascii.eqb c "]").
    + apply IH. destruct acc; exact Ht.
    + destruct (decimalDigit c) as [d|]; [|discriminate]. simpl.
      destruct acc as [[|p]|]; try discriminate; apply IH; exact Ht.
  - destruct (Ascii.eqb c "["); [|discriminate]. apply IH, Ht.
Qed.

(** The parser yields supported types only. *)
Lemma parseType_supported T t : parseType T = Some t -> supported t = true.
Proof.
  unfold parseType. destruct (splitBracket T) as [base suffixes].
  destruct (parseElementary base) as [t0|] eqn:H0; [|discriminate]. simpl.
  apply parseSuffixes_supported, parseElementary_supported with base, H0.
Qed.

(** C1. Round trip: for every descriptor [T] the codec resolves and every
    valid native value [v] of its type, [encodeValue(T, v)] is a hex
    string and [decodeValue] reads [v] back from it.  A value is valid
    when it is in the form the decoder returns (numbers in the range of
    the type, hex strings with the marker and the length of the type, text
    of Unicode scalar values, arrays of the declared length) and its
    encoding is shorter than [2^256] bytes. *)
Theorem codec_round_trip T t v :
  parseType T = Some t -> valid t v = true ->
  exists hex, encodeValue T v = Ok hex /\ decodeValue T hex = Ok v.
Proof.
  intros HT [Hwf Hfit]%andb_true_iff.
  unfold fitsWord in Hfit.
  destruct (encode t v) as [bs|] eqn:Henc; [|discriminate].
  apply Z.ltb_lt in Hfit.
  exists (Hex.encode bs). unfold encodeValue, decodeValue, resolveType.
  rewrite HT. cbn [mbind result_bind]. rewrite Henc. cbn [mbind result_bind].
  split; [reflexivity|].
  rewrite HexFacts.hex_decode_encode.
  rewrite <- (app_nil_r bs).
  apply abi_decode_encode; [apply parseType_supported with T|..]; assumption.
Qed.

End CodecFacts.

(** ** The call encoder *)

Module EncoderFacts.
Import Bytes BytesFacts Word WordFacts CodecFacts Abi AbiDef Encoder.

Section Hashing.
Variable hash : list byte -> list byte.
(** The hash is at least as long as a selector. *)
Hypothesis hash_length : forall m, (selectorLength <= length (hash m))%nat.

Lemma length_selector name types : length (selector hash name types) = 4%nat.
Proof.
  unfold selector. rewrite length_take.
  specialize (hash_length (list_byte_of_string (signature name types))).
  unfold selectorLength in *. lia.
Qed.

(** A payload is the selector of the resolved function, then the
    arguments. *)
Lemma encodeCall_shape abi name args payload :
  encodeCall hash abi name args = Ok payload ->
  exists f body,
    resolveMethod abi name args = Ok f
    /\ encodeArguments (inputs f) args = Ok body
    /\ payload = Hex.render
                   (selector hash (functionName f) (map paramType (inputs f)) ++ body).
Proof.
  unfold encodeCall.
  destruct (resolveMethod abi name args) as [f|]; [|discriminate].
  cbn [mbind result_bind].
  destruct (length (inputs f) =? length args)%nat; [|discriminate].
  destruct (encodeArguments (inputs f) args) as [body|] eqn:Hb; [|discriminate].
  cbn [mbind result_bind]. intros Hp%Ok_inj. exists f, body. auto.
Qed.

(** C3. The selector is a function of the method name and the ordered
    type list alone: two calls, whatever their ABI and their arguments,
    that resolve to functions of one name and one list of input types
    give payloads that start with the same four bytes, the selector of
    that name and those types. *)
Theorem selector_independent_of_arguments
    abi1 abi2 name args1 args2 payload1 payload2 f1 f2 :
  encodeCall hash abi1 name args1 = Ok payload1 ->
  encodeCall hash abi2 name args2 = Ok payload2 ->
  resolveMethod abi1 name args1 = Ok f1 ->
  resolveMethod abi2 name args2 = Ok f2 ->
  functionName f1 = functionName f2 ->
  map paramType (inputs f1) = map paramType (inputs f2) ->
  exists bytes1 bytes2,
    Hex.decode payload1 = Some bytes1
    /\ Hex.decode payload2 = Some bytes2
    /\ take 4 bytes1 = selector hash (functionName f1) (map paramType (inputs f1))
    /\ take 4 bytes2 = take 4 bytes1
    /\ length (take 4 bytes1) = 4%nat.
Proof.
  intros (g1 & body1 & Hg1 & _ & ->)%encodeCall_shape
         (g2 & body2 & Hg2 & _ & ->)%encodeCall_shape Hr1 Hr2 Hname Htypes.
  rewrite Hg1 in Hr1. rewrite Hg2 in Hr2.
  apply Ok_inj in Hr1, Hr2. subst g1 g2.
  rewrite <- Hname, <- Htypes.
  set (sel := selector hash (functionName f1) (map paramType (inputs f1))).
  assert (Hsel : length sel = 4%nat) by apply length_selector.
  exists (sel ++ body1), (sel ++ body2).
  rewrite !HexFacts.decode_render.
  rewrite !take_app_length' by (symmetry; assumption).
  repeat split; assumption.
Qed.

Lemma headTail_two a b : headTail [(false, a); (false, b)] = a ++ b.
Proof.
  change [(false, a); (false, b)] with (map (pair false) [a; b]).
  rewrite headTail_static. simpl. rewrite app_nil_r. reflexivity.
Qed.

(** C4. The payload of [transfer(address,uint256)] called with an
    address (a hex string of 20 bytes) and [100] is, in hex with the
    marker, the 4-byte selector, then the address left-padded with
    zeros to 32 bytes, then [100] as 32 bytes, most significant
    first. *)
Theorem encodeCall_transfer_layout abi f a bs :
  resolveMethod abi "transfer" [VHex a; VNum 100] = Ok f ->
  functionName f = "transfer" ->
  map paramType (inputs f) = ["address"; "uint256"] ->
  Hex.decode a = Some bs -> length bs = 20%nat ->
  let sel := selector hash "transfer" ["address"; "uint256"] in
  let addressWord := replicate 12 x00 ++ bs in
  let amountWord := replicate 31 x00 ++ [x64] in
  encodeCall hash abi "transfer" [VHex a; VNum 100]
    = Ok (Hex.render (sel ++ addressWord ++ amountWord))
  /\ length sel = 4%nat
  /\ length addressWord = 32%nat
  /\ length amountWord = 32%nat
  /\ Bytes.value amountWord = 100.
Proof.
  intros Hres Hname Htypes Ha Hl. cbv zeta.
  split; [|split; [|split; [|split]]].
  - unfold encodeCall. rewrite Hres. cbn [mbind result_bind].
    rewrite Hname, Htypes.
    destruct (inputs f) as [|p1 [|p2 [|p3 ps]]]; try discriminate.
    injection Htypes as Hp1 Hp2.
    unfold encodeArguments. cbn [length Nat.eqb zip_with collect].
    unfold encodeArgument. rewrite Hp1, Hp2.
    change (resolveType "address") with (Ok TAddress).
    change (resolveType "uint256") with (Ok (TUint 256)).
    cbn [mbind result_bind encode isDynamic].
    unfold hexOfLength. rewrite Ha, Hl. cbn [Nat.eqb mbind result_bind].
    rewrite headTail_two. unfold padLeft. rewrite Hl.
    rewrite <- app_assoc. reflexivity.
  - apply length_selector.
  - rewrite length_app, length_replicate, Hl. reflexivity.
  - reflexivity.
  - reflexivity.
Qed.

End Hashing.

End EncoderFacts.

(** ** The event log decoder *)

Module DecoderFacts.
Import Abi AbiDef Decoder.

Section Hashing.
Variable hash : list byte -> list byte.

(** The loop over the batch gives each entry its own result, in order. *)
Lemma decodeSearchLog_map raws md strip :
  decodeSearchLog hash raws md strip = map (decodeEntry hash md strip) raws.
Proof.
  unfold decodeSearchLog.
  assert (Hgen : forall out,
             fold_left (fun out e => out ++ [decodeEntry hash md strip e]) raws out
             = out ++ map (decodeEntry hash md strip) raws).
  { induction raws as [|e raws IH]; intros out; simpl.
    - rewrite app_nil_r. reflexivity.
    - rewrite IH, <- app_assoc. reflexivity. }
  apply (Hgen []).
Qed.

(** The result of an entry stands for that entry. *)
Lemma entryOf_decodeEntry md strip e : entryOf (decodeEntry hash md strip e) = e.
Proof.
  unfold decodeEntry.
  destruct (md !! address e) as [abi|]; [|reflexivity].
  destruct (topics e) as [|t0 ts]; [reflexivity|].
  destruct (matchEvent hash (eventsOf abi) t0) as [ev|]; [|reflexivity].
  destruct (decodeFields ev ts (data e) strip); reflexivity.
Qed.

(** C2. An entry that cannot be resolved does not abort the batch.
    [decodeSearchLog] returns one result per entry, in order; the result
    of an entry is the one it has when decoded alone, whatever the other
    entries are, and it carries the entry.  An entry of a contract
    without metadata, or whose first topic matches no event, comes back
    raw ([Unmatched]); an entry whose topics or data fail to decode
    comes back with the error ([Undecodable]); neither is a decoded
    result. *)
Theorem decodeSearchLog_batch_resilient raws md strip :
  let out := decodeSearchLog hash raws md strip in
  length out = length raws
  /\ (forall i e, raws !! i = Some e ->
        exists d, out !! i = Some d
                  /\ decodeSearchLog hash [e] md strip = [d]
                  /\ entryOf d = e)
  /\ (forall i e, raws !! i = Some e ->
        md !! address e = None
        \/ topics e = []
        \/ (exists abi t0 ts, md !! address e = Some abi /\ topics e = t0 :: ts
                              /\ matchEvent hash (eventsOf abi) t0 = None) ->
        out !! i = Some (Unmatched e) /\ isDecoded (Unmatched e) = false)
  /\ (forall i e abi t0 ts ev err, raws !! i = Some e ->
        md !! address e = Some abi -> topics e = t0 :: ts ->
        matchEvent hash (eventsOf abi) t0 = Some ev ->
        decodeFields ev ts (data e) strip = Fail err ->
        out !! i = Some (Undecodable e err)
        /\ isDecoded (Undecodable e err) = false).
Proof.
  cbv zeta. rewrite decodeSearchLog_map.
  split; [apply length_map|].
  split; [|split].
  - intros i e Hi. exists (decodeEntry hash md strip e).
    rewrite list_lookup_fmap, Hi. repeat split.
    apply entryOf_decodeEntry.
  - intros i e Hi Hun. rewrite list_lookup_fmap, Hi. split; [|reflexivity].
    simpl. f_equal. unfold decodeEntry.
    destruct Hun as [->|[Ht|(abi & t0 & ts & -> & -> & ->)]]; try reflexivity.
    destruct (md !! address e); [|reflexivity]. rewrite Ht. reflexivity.
  - intros i e abi t0 ts ev err Hi Hmd Ht Hev Hfail.
    rewrite list_lookup_fmap, Hi. split; [|reflexivity].
    simpl. f_equal. unfold decodeEntry. rewrite Hmd, Ht, Hev, Hfail. reflexivity.
Qed.

End Hashing.

End DecoderFacts.

(** ** The definitions at work on the sample data *)

Module Runs.
Import Samples.

(** A node answering [null] counts as connected: [typeof null] is
    ['object']. *)
Example isConnected_null :
  fst (Web3.isConnected nullTransport start) = Js.Normal (Js.Fulfilled (Js.Bool true)).
Proof. reflexivity. Qed.

Example isConnected_down :
  fst (Web3.isConnected downTransport start) = Js.Normal (Js.Fulfilled (Js.Bool false)).
Proof. reflexivity. Qed.

Example initProtocol_samples :
  Protocols.initProtocol (Js.Str "http://user:pw@127.0.0.1:9888")
    = Js.Normal (Js.HttpProtocol (Js.Str "http://user:pw@127.0.0.1:9888"))
  /\ Protocols.initProtocol (Js.Num (S754_finite false 5 0))
    = Js.Throw (Js.Err "protocol is not a compatible Web3 Provider.")
  /\ Protocols.initProtocol Js.Undefined
    = Js.Throw (Js.Err "protocol cannot be undefined.")
  /\ Protocols.initProtocol (Js.Obj {[ "rawCall" := Js.Fun "rawCall" ∅ ]})
    = Js.Normal (Js.Obj {[ "rawCall" := Js.Fun "rawCall" ∅ ]}).
Proof. repeat split; vm_compute; reflexivity. Qed.

Example parseType_samples :
  Abi.parseType "uint256[3][]"
    = Some (Abi.TDynArray (Abi.TFixedArray (Abi.TUint 256) 3))
  /\ Abi.parseType "string[2]" = Some (Abi.TFixedArray Abi.TString 2)
  /\ Abi.parseType "bytes32" = Some (Abi.TFixedBytes 32)
  /\ Abi.parseType "uint7" = None
  /\ Abi.parseType "int8[" = None
  /\ Abi.parseType "uint256[03]" = None.
Proof. vm_compute. repeat split; reflexivity. Qed.

Example encodeValue_samples :
  Abi.encodeValue "int8" (Abi.VNum (-1))
    = Abi.Ok "ffffffffffffffffffffffffffffffffffffffffffffffffffffffffffffffff"
  /\ Abi.decodeValue "int8"
       "0xffffffffffffffffffffffffffffffffffffffffffffffffffffffffffffffff"
    = Abi.Ok (Abi.VNum (-1))
  /\ Abi.encodeValue "uint8" (Abi.VText []) = Abi.Fail (Abi.ValueMismatch (Abi.TUint 8))
  /\ Abi.encodeValue "float" (Abi.VNum 1) = Abi.Fail (Abi.UnknownType "float").
Proof. vm_compute. repeat split; reflexivity. Qed.

(** A hex string without the marker is accepted on input and comes back
    with it. *)
Example address_normalised :
  Abi.encodeValue "address" (Abi.VHex "00000000000000000000000000000000000a11ce")
    = Abi.encodeValue "address" (Abi.VHex alice)
  /\ Abi.decodeValue "address"
       "00000000000000000000000000000000000000000000000000000000000a11ce"
    = Abi.Ok (Abi.VHex alice).
Proof. vm_compute. split; reflexivity. Qed.

(** The batch of the specification: the second of three entries belongs
    to a contract without metadata. *)
Example batch_of_three :
  Decoder.decodeSearchLog toyHash [transferLog 5; strayLog; transferLog 9] metadata true
  = [Decoder.Decoded (transferLog 5) "Transfer"
       [("from", Abi.VHex "00000000000000000000000000000000000a11ce");
        ("to", Abi.VHex "0000000000000000000000000000000000000b0b");
        ("value", Abi.VNum 5)];
     Decoder.Unmatched strayLog;
     Decoder.Decoded (transferLog 9) "Transfer"
       [("from", Abi.VHex "00000000000000000000000000000000000a11ce");
        ("to", Abi.VHex "0000000000000000000000000000000000000b0b");
        ("value", Abi.VNum 9)]].
Proof. vm_compute. reflexivity. Qed.

Example batch_with_truncated_data :
  map Decoder.isDecoded
    (Decoder.decodeSearchLog toyHash [transferLog 5; truncatedLog; transferLog 9]
       metadata false)
  = [true; false; true].
Proof. vm_compute. reflexivity. Qed.

Lemma length_toyHash m : (Encoder.selectorLength <= length (toyHash m))%nat.
Proof.
  unfold toyHash, Encoder.selectorLength.
  rewrite length_take, length_app, length_replicate. lia.
Qed.

(** [codec_round_trip] on an array of two arrays of strings. *)
Lemma codec_round_trip_witness :
  exists hex,
    Abi.encodeValue "string[][2]" nested = Abi.Ok hex
    /\ Abi.decodeValue "string[][2]" hex = Abi.Ok nested.
Proof.
  apply (CodecFacts.codec_round_trip "string[][2]"
           (Abi.TFixedArray (Abi.TDynArray Abi.TString) 2) nested);
    vm_compute; reflexivity.
Defined.

(** [selector_independent_of_arguments] on two transfers of the token. *)
Lemma selector_independent_of_arguments_witness :
  exists bytes1 bytes2,
    Hex.decode
      "0x7472616e00000000000000000000000000000000000000000000000000000000000a11ce0000000000000000000000000000000000000000000000000000000000000064"
    = Some bytes1
    /\ Hex.decode
         "0x7472616e0000000000000000000000000000000000000000000000000000000000000b0b0000000000000000000000000000000000000000000000000000000000000007"
       = Some bytes2
    /\ take 4 bytes1
       = Encoder.selector toyHash (AbiDef.functionName transfer)
           (map AbiDef.paramType (AbiDef.inputs transfer))
    /\ take 4 bytes2 = take 4 bytes1
    /\ length (take 4 bytes1) = 4%nat.
Proof.
  apply (EncoderFacts.selector_independent_of_arguments toyHash length_toyHash
           token token "transfer"
           [Abi.VHex alice; Abi.VNum 100] [Abi.VHex bob; Abi.VNum 7]
           _ _ transfer transfer);
    vm_compute; reflexivity.
Defined.

(** [encodeCall_transfer_layout] on a transfer of 100 to alice. *)
Lemma encodeCall_transfer_layout_witness :
  Encoder.encodeCall toyHash token "transfer" [Abi.VHex alice; Abi.VNum 100]
    = Abi.Ok (Hex.render
                (Encoder.selector toyHash "transfer" ["address"; "uint256"]
                 ++ (replicate 12 x00 ++ default [] (Hex.decode alice))
                 ++ (replicate 31 x00 ++ [x64])))
  /\ length (Encoder.selector toyHash "transfer" ["address"; "uint256"]) = 4%nat
  /\ length (replicate 12 x00 ++ default [] (Hex.decode alice)) = 32%nat
  /\ length (replicate 31 x00 ++ [x64]) = 32%nat
  /\ Bytes.value (replicate 31 x00 ++ [x64]) = 100.
Proof.
  apply (EncoderFacts.encodeCall_transfer_layout toyHash length_toyHash
           token transfer alice (default [] (Hex.decode alice)));
    vm_compute; reflexivity.
Defined.

(** A comment left out is bound to its default, the empty string. *)
Example sendtoaddress_default_comments :
  Web3.issued
    (snd (Web3.sendtoaddress countingTransport
            (Js.Str "LdP8Qox1VAhCzLJNqrr74YovaWYyNBUWvL") (block 1)
            Js.Undefined Js.Undefined start))
  = [Web3.Call "sendtoaddress"
       (Some [Js.Str "LdP8Qox1VAhCzLJNqrr74YovaWYyNBUWvL"; block 1;
              Js.Str ""; Js.Str ""])].
Proof. reflexivity. Qed.

(** [searchlogs_fails_fast] on a block number given as a string. *)
Lemma searchlogs_fails_fast_witness :
  exists name others msg,
    Web3.offending (Js.Str "1") (block 9) (Js.Str "aa") (Js.Arr []) = name :: others
    /\ String.prefix name msg = true
    /\ Web3.searchlogs countingTransport taggingDecoder
         (Js.Str "1") (block 9) (Js.Str "aa") (Js.Arr []) Js.Null (Js.Bool true) start
       = (Js.Throw (Js.Err msg), start).
Proof.
  apply (FacadeFacts.searchlogs_fails_fast countingTransport taggingDecoder).
  left. reflexivity.
Defined.

(** [searchlogs_canonical_filters] on one address and a list of topics. *)
Lemma searchlogs_canonical_filters_witness :
  (Js.isString (Js.Str "aa") = true -> Js.Arr [Js.Str "aa"] = Js.Arr [Js.Str "aa"])
  /\ (Js.isArray (Js.Str "aa") = true -> Js.Arr [Js.Str "aa"] = Js.Str "aa")
  /\ (Js.isString (Js.Arr [Js.Null]) = true -> Js.Arr [Js.Null] = Js.Arr [Js.Arr [Js.Null]])
  /\ (Js.isArray (Js.Arr [Js.Null]) = true -> Js.Arr [Js.Null] = Js.Arr [Js.Null])
  /\ Web3.issued
       (snd (Web3.searchlogs countingTransport taggingDecoder
               (block 1) (block 9) (Js.Str "aa") (Js.Arr [Js.Null])
               Js.Null (Js.Bool true) start))
     = Web3.issued start ++
         [Web3.Call "searchlogs"
            (Some [block 1; block 9;
                   Js.Obj {[ "addresses" := Js.Arr [Js.Str "aa"] ]};
                   Js.Obj {[ "topics" := Js.Arr [Js.Null] ]}])].
Proof.
  apply (FacadeFacts.searchlogs_canonical_filters countingTransport taggingDecoder);
    reflexivity.
Defined.

(** [searchlogs_pipes_into_decoder] on the transport that returns an empty
    list. *)
Lemma searchlogs_pipes_into_decoder_witness :
  exists p,
    fst (Web3.searchlogs countingTransport taggingDecoder
           (block 1) (block 9) (Js.Str "aa") (Js.Arr [Js.Null])
           Js.Null (Js.Bool true) start) = Js.Normal p
    /\ (forall decoded,
          taggingDecoder (Js.Arr []) Js.Null (Js.Bool true) = Js.Normal decoded ->
          p = Js.Fulfilled decoded)
    /\ (forall e,
          taggingDecoder (Js.Arr []) Js.Null (Js.Bool true) = Js.Throw e ->
          p = Js.Rejected e)
    /\ length (Web3.issued
                 (snd (Web3.searchlogs countingTransport taggingDecoder
                         (block 1) (block 9) (Js.Str "aa") (Js.Arr [Js.Null])
                         Js.Null (Js.Bool true) start)))
       = S (length (Web3.issued start)).
Proof.
  apply (FacadeFacts.searchlogs_pipes_into_decoder countingTransport taggingDecoder
           (block 1) (block 9) (Js.Str "aa") (Js.Arr [Js.Null]) Js.Null (Js.Bool true)
           (Js.Arr [Js.Str "aa"]) (Js.Arr [Js.Null]) (Js.Arr []) start);
    reflexivity.
Defined.

End Runs.

(** ** More on the facade: the pass-through family, failures, edges *)

Module PassThroughFacts.
Import Js Web3 PassThrough.

Section Facade.
Context {W : Type}.
Variable transport : call -> W -> outcome * W.

Lemma param_defined a d : a <> Undefined -> param a d = a.
Proof. destruct a; intros H; try reflexivity. congruence. Qed.

(** Unfolds a call of the family down to its [rawCall]. *)
Local Ltac to_rawCall :=
  cbv [run getblock getblockchaininfo getblockcount getblockhash
       gettransactionreceipt listcontracts getpeerinfo gethexaddress
       fromhexaddress validateaddress backupwallet dumpprivkey encryptwallet
       getaccount getAccountAddress getaddressesbyaccount getnewaddress
       gettransaction getwalletinfo getunconfirmedbalance importaddress
       importprivkey importwallet listaddressgroupings listlockunspent
       listunspent sendtoaddress settxfee walletlock walletpassphrase
       walletpassphrasechange];
  rewrite FacadeFacts.rawCall_run.

(** X1. Every pass-through method makes exactly one request, and hands
    back what the transport does with it: the promise the transport
    returns is the promise the method returns, what the transport throws
    the method throws.  No method validates, retries, catches or wraps. *)
Theorem pass_through_one_request (i : invocation) (st : state) :
  exists c,
    issued (snd (run transport i st)) = issued st ++ [c]
    /\ world (snd (run transport i st)) = snd (transport c (world st))
    /\ fst (run transport i st)
       = match fst (transport c (world st)) with
         | Throws e => Throw e
         | Returns p => Normal p
         end.
Proof.
  destruct i; to_rawCall; eexists; (split; [reflexivity|]); split; reflexivity.
Qed.

(** X2. The request of a pass-through method carries one parameter per
    declared parameter of the method, in order (and no parameter list at
    all when the method declares none), whatever the caller leaves out;
    every argument that is not [undefined] is forwarded as it is given,
    [null], [false], [0] and the empty string included: a default only
    ever stands in for [undefined]. *)
Theorem pass_through_arguments_forwarded (i : invocation) (st : state) :
  exists c,
    last (issued (snd (run transport i st))) = Some c
    /\ (params c = None <-> arguments i = [])
    /\ length (default [] (params c)) = length (arguments i)
    /\ forall k a,
         arguments i !! k = Some a -> a <> Undefined ->
         default [] (params c) !! k = Some a.
Proof.
  destruct i; to_rawCall; eexists; (split; [apply last_snoc|]);
    (split; [split; intros H; (discriminate H || reflexivity)|]);
    (split; [reflexivity|]);
    intros k a Hk Ha; cbn [arguments params default] in *;
    repeat (destruct k as [|k];
            [cbn in Hk |- *; injection Hk as <-;
             rewrite ?param_defined by assumption; reflexivity|]);
    cbn in Hk; discriminate Hk.
Qed.

End Facade.

End PassThroughFacts.

Module FacadeEdges.
Import Js Protocols Web3.

Section Facade.
Context {W : Type}.
Variable transport : call -> W -> outcome * W.

(** The request [searchlogs] makes once its guards have passed. *)
Local Abbreviation request fromBlock toBlock addrs tops :=
  (Call "searchlogs"
     (Some [fromBlock; toBlock;
            Obj {[ "addresses" := addrs ]}; Obj {[ "topics" := tops ]}])).

(** X3. [searchlogs] passes the failures of the transport on and leaves
    the decoder out of them: a rejected promise comes back rejected with
    the same error, a promise that never settles stays pending, and what
    [rawCall] throws is thrown by [searchlogs]; in none of these cases does
    the result depend on the decoder. *)
Theorem searchlogs_transport_failures
    decodeSearchLog fromBlock toBlock addresses topics md rm addrs tops (st : state) :
  isFinite fromBlock = true -> isFinite toBlock = true ->
  canonical addresses = Some addrs -> canonical topics = Some tops ->
  let answer := fst (transport (request fromBlock toBlock addrs tops) (world st)) in
  let result :=
    fst (searchlogs transport decodeSearchLog
           fromBlock toBlock addresses topics md rm st) in
  (forall e, answer = Returns (Rejected e) -> result = Normal (Rejected e))
  /\ (answer = Returns Pending -> result = Normal Pending)
  /\ (forall e, answer = Throws e -> result = Throw e).
Proof.
  intros Hf Ht Ha Hp answer result. subst result.
  rewrite (FacadeFacts.searchlogs_run _ _ _ _ _ _ md rm _ _ st Hf Ht Ha Hp).
  unfold bind. rewrite FacadeFacts.rawCall_run. fold answer.
  repeat split; intros; subst answer;
    match goal with H : _ = _ |- _ => rewrite H end; reflexivity.
Qed.

(** X4. Neither [contractMetadata] nor [removeHexPrefix] nor the decoder
    has any part in what [searchlogs] asks of the transport: the requests
    issued and the state the transport is left in are the same whatever
    they are, on valid and on invalid arguments alike. *)
Theorem searchlogs_request_ignores_metadata
    decode1 decode2 fromBlock toBlock addresses topics md1 md2 rm1 rm2 (st : state) :
  snd (searchlogs transport decode1 fromBlock toBlock addresses topics md1 rm1 st)
  = snd (searchlogs transport decode2 fromBlock toBlock addresses topics md2 rm2 st).
Proof.
  unfold searchlogs.
  destruct (isFinite fromBlock); [|reflexivity].
  destruct (isFinite toBlock); [|reflexivity]. simpl.
  destruct (isString addresses), (isArray addresses),
    (isString topics), (isArray topics); simpl; try reflexivity;
    unfold bind, ret, throw; simpl;
    rewrite !FacadeFacts.rawCall_run;
    match goal with
    | |- context [fst (transport ?c ?w)] => destruct (fst (transport c w))
    end; reflexivity.
Qed.

(** X5. The only exceptions [searchlogs] throws are its four validation
    errors, thrown before anything is asked of the transport, and what
    [rawCall] itself throws; an exception of the decoder is never thrown
    by [searchlogs]. *)
Theorem searchlogs_throws_only
    decodeSearchLog fromBlock toBlock addresses topics md rm (st : state) e :
  fst (searchlogs transport decodeSearchLog
         fromBlock toBlock addresses topics md rm st) = Throw e ->
  (offending fromBlock toBlock addresses topics <> []
   /\ snd (searchlogs transport decodeSearchLog
             fromBlock toBlock addresses topics md rm st) = st
   /\ In e [Err "fromBlock must be a number";
            Err "toBlock must be a number.";
            Err "addresses must be a string or an array.";
            Err "topics must be a string or an array."])
  \/ (offending fromBlock toBlock addresses topics = []
      /\ exists c, method c = "searchlogs"
                   /\ fst (transport c (world st)) = Throws e).
Proof.
  unfold searchlogs, offending.
  destruct (isFinite fromBlock); simpl.
  2: { intros [= <-]. left. repeat split; [discriminate|simpl; tauto]. }
  destruct (isFinite toBlock); simpl.
  2: { intros [= <-]. left. repeat split; [discriminate|simpl; tauto]. }
  destruct (isString addresses), (isArray addresses),
    (isString topics), (isArray topics); simpl;
    unfold bind, ret, throw; simpl;
    try (intros [= <-]; left; repeat split; [discriminate|simpl; tauto]);
    rewrite !FacadeFacts.rawCall_run;
    match goal with
    | |- context [fst (transport ?c ?w)] => destruct (fst (transport c w)) eqn:Hans
    end; simpl; try discriminate;
    intros [= <-]; right; (split; [reflexivity|]);
    eexists; (split; [|exact Hans]); reflexivity.
Qed.

(** X6. [isConnected] asks the transport exactly once, for
    [getnetworkinfo] and without a parameter list, whether the answer is
    good, bad, thrown or never comes; and its promise stays pending exactly
    when the promise of the transport does. *)
Theorem isConnected_one_request (st : state) :
  let c := Call "getnetworkinfo" None in
  snd (isConnected transport st)
    = State (snd (transport c (world st))) (issued st ++ [c])
  /\ (fst (isConnected transport st) = Normal Pending
      <-> fst (transport c (world st)) = Returns Pending).
Proof.
  cbv zeta. unfold isConnected, async, atryCatch, abind, await, aret.
  rewrite FacadeFacts.rawCall_run.
  destruct (fst (transport _ (world st))) as [e|[v|e|]]; simpl;
    (split; [reflexivity|]); split; intros H; try discriminate H; reflexivity.
Qed.

(** X7. What counts as connected is the answer's [typeof] alone: a node
    that answers [null], an array, an object, a [String] object or an
    error object is reported connected, one that answers [undefined], a
    boolean, a number, a string or a function is not. *)
Theorem isConnected_by_shape (st : state) v :
  fst (transport (Call "getnetworkinfo" None) (world st)) = Returns (Fulfilled v) ->
  fst (isConnected transport st)
  = Normal (Fulfilled (Bool match v with
                            | Undefined | Bool _ | Num _ | Str _ | Fun _ _ => false
                            | _ => true
                            end)).
Proof.
  intros Hans. unfold isConnected, async, atryCatch, abind, await, aret.
  rewrite FacadeFacts.rawCall_run, Hans. destruct v; reflexivity.
Qed.

End Facade.

(** A function is truthy. *)
Lemma function_truthy q : String.eqb (typeof q) "function" = true -> truthy q = true.
Proof. destruct q; simpl; intros H; try discriminate H; reflexivity. Qed.

(** Only truthy values that are not strings have a [rawCall] function. *)
Lemma exposes_truthy p :
  exposesRawCall p = true ->
  truthy p = true /\ String.eqb (typeof p) "string" = false.
Proof. destruct p; simpl; intros H; try discriminate H; split; reflexivity. Qed.

Lemma initProtocol_exposes p : exposesRawCall p = true -> initProtocol p = Normal p.
Proof.
  intros He. destruct (exposes_truthy p He) as [Htr Hty].
  unfold initProtocol. rewrite Htr, Hty. simpl.
  unfold exposesRawCall in He. rewrite He, (function_truthy _ He). reflexivity.
Qed.

Lemma initProtocol_result p q : initProtocol p = Normal q -> exposesRawCall q = true.
Proof.
  unfold initProtocol.
  destruct (truthy p); simpl; [|discriminate].
  destruct (String.eqb (typeof p) "string").
  - intros [= <-]. reflexivity.
  - destruct (truthy (getProp p "rawCall")); simpl; [|discriminate].
    destruct (String.eqb (typeof (getProp p "rawCall")) "function") eqn:He;
      simpl; [|discriminate].
    intros [= <-]. exact He.
Qed.

(** X8. A [Web3] instance can be built from exactly two kinds of argument:
    a non-empty string, and a value with a [rawCall] function.  Everything
    else makes the constructor throw, with one of the two messages of
    [initProtocol]. *)
Theorem constructor_succeeds_iff p :
  ((exists w, constructor p = Normal w) <->
   (exists s, p = Str s /\ s <> "") \/ exposesRawCall p = true)
  /\ (forall e, constructor p = Throw e ->
        e = Err "protocol cannot be undefined."
        \/ e = Err "protocol is not a compatible Web3 Provider.").
Proof.
  destruct (exposesRawCall p) eqn:He.
  { unfold constructor. rewrite (initProtocol_exposes p He).
    split; [split; eauto|]. intros e H. discriminate H. }
  unfold constructor, initProtocol.
  destruct (truthy p) eqn:Htr; simpl.
  - destruct (String.eqb (typeof p) "string") eqn:Hty.
    + assert (exists s, p = Str s) as [s ->]
        by (destruct p; simpl in Hty; try discriminate; eauto).
      assert (Hs : s <> "").
      { simpl in Htr. apply negb_true_iff, String.eqb_neq in Htr. exact Htr. }
      split; [split; eauto|]. intros e H. discriminate H.
    + unfold exposesRawCall in He. rewrite He, orb_true_r. split.
      * split; [intros [w Hw]; discriminate Hw|].
        intros [(s & -> & _)|H]; [simpl in Hty|]; discriminate.
      * intros e [= <-]. right. reflexivity.
  - split.
    + split; [intros [w Hw]; discriminate Hw|].
      intros [(s & -> & Hs)|H]; [|discriminate H].
      simpl in Htr. apply negb_false_iff, String.eqb_eq in Htr. contradiction.
    + intros e [= <-]. left. reflexivity.
Qed.

(** X9. What [initProtocol] returns it accepts again, unchanged: the
    protocol of one instance can be handed to [initProtocol], or to the
    constructor of another instance, and is shared as it is. *)
Theorem initProtocol_idempotent p q :
  initProtocol p = Normal q ->
  initProtocol q = Normal q /\ constructor q = Normal (Instance q).
Proof.
  intros Hq%initProtocol_result.
  unfold constructor. rewrite (initProtocol_exposes q Hq). split; reflexivity.
Qed.

End FacadeEdges.

(** ** More runs on the sample data *)

Module MoreRuns.
Import Samples.

(** A missing argument without a default is sent as [undefined], the count
    of parameters kept. *)
Example getblockhash_without_argument :
  Web3.issued
    (snd (PassThrough.run countingTransport (PassThrough.Getblockhash Js.Undefined) start))
  = [Web3.Call "getblockhash" (Some [Js.Undefined])].
Proof. reflexivity. Qed.

(** [searchlogs_transport_failures] on a transport that is down. *)
Lemma searchlogs_transport_failures_witness :
  let answer :=
    fst (downTransport
           (Web3.Call "searchlogs"
              (Some [block 1; block 9;
                     Js.Obj {[ "addresses" := Js.Arr [Js.Str "aa"] ]};
                     Js.Obj {[ "topics" := Js.Arr [Js.Null] ]}]))
           (Web3.world start)) in
  let result :=
    fst (Web3.searchlogs downTransport taggingDecoder
           (block 1) (block 9) (Js.Str "aa") (Js.Arr [Js.Null])
           Js.Null (Js.Bool true) start) in
  (forall e, answer = Web3.Returns (Js.Rejected e) -> result = Js.Normal (Js.Rejected e))
  /\ (answer = Web3.Returns Js.Pending -> result = Js.Normal Js.Pending)
  /\ (forall e, answer = Web3.Throws e -> result = Js.Throw e).
Proof.
  apply (FacadeEdges.searchlogs_transport_failures downTransport taggingDecoder
           (block 1) (block 9) (Js.Str "aa") (Js.Arr [Js.Null]) Js.Null (Js.Bool true)
           (Js.Arr [Js.Str "aa"]) (Js.Arr [Js.Null]) start);
    reflexivity.
Defined.

(** [searchlogs_throws_only] on a block number given as a string. *)
Lemma searchlogs_throws_only_witness :
  (Web3.offending (Js.Str "1") (block 9) (Js.Str "aa") (Js.Arr []) <> []
   /\ snd (Web3.searchlogs countingTransport taggingDecoder
             (Js.Str "1") (block 9) (Js.Str "aa") (Js.Arr []) Js.Null (Js.Bool true) start)
      = start
   /\ In (Js.Err "fromBlock must be a number")
        [Js.Err "fromBlock must be a number";
         Js.Err "toBlock must be a number.";
         Js.Err "addresses must be a string or an array.";
         Js.Err "topics must be a string or an array."])
  \/ (Web3.offending (Js.Str "1") (block 9) (Js.Str "aa") (Js.Arr []) = []
      /\ exists c, Web3.method c = "searchlogs"
                   /\ fst (countingTransport c (Web3.world start))
                      = Web3.Throws (Js.Err "fromBlock must be a number")).
Proof.
  apply (FacadeEdges.searchlogs_throws_only countingTransport taggingDecoder
           (Js.Str "1") (block 9) (Js.Str "aa") (Js.Arr []) Js.Null (Js.Bool true) start).
  reflexivity.
Defined.

(** [isConnected_by_shape] on a node that answers [null]. *)
Lemma isConnected_by_shape_witness :
  fst (Web3.isConnected nullTransport start) = Js.Normal (Js.Fulfilled (Js.Bool true)).
Proof.
  apply (FacadeEdges.isConnected_by_shape nullTransport start Js.Null). reflexivity.
Defined.

(** [initProtocol_idempotent] on a URL. *)
Lemma initProtocol_idempotent_witness :
  Protocols.initProtocol (Js.HttpProtocol (Js.Str "http://127.0.0.1:9888"))
    = Js.Normal (Js.HttpProtocol (Js.Str "http://127.0.0.1:9888"))
  /\ Web3.constructor (Js.HttpProtocol (Js.Str "http://127.0.0.1:9888"))
     = Js.Normal (Web3.Instance (Js.HttpProtocol (Js.Str "http://127.0.0.1:9888"))).
Proof.
  apply (FacadeEdges.initProtocol_idempotent (Js.Str "http://127.0.0.1:9888")).
  reflexivity.
Defined.

End MoreRuns.
